(** * Items service: a CRUD HTTP API over one MongoDB collection

    Shallow embedding of

      - [app/schema/item.py]               (the pydantic models),
      - [app/crud/item.py]                 (the repository functions),
      - [app/api/api_v1/endpoints/item.py] (the request handlers),
      - [app/api/api_v1/api.py], [app/main.py] (routing),

    together with an executable model of what these call into: Python
    dictionaries, [uuid.uuid4], and the Motor/PyMongo collection API
    ([insert_one], [find_one], [find().skip().to_list()], [update_one],
    [delete_many]) over a collection held as a list of documents in
    natural order; and of what the framework does around a path
    operation: the validation of the query parameters, the declared
    status code, and the rendering of a returned model as JSON.

    Every coroutine is a computation in the monad [M]: it threads the
    [world] (collection contents, the record of driver round trips, the
    entropy source, the schedule of database faults) and either returns a
    value or raises a Python exception.  [await] has no content of its own
    in this sequential model. *)

From Stdlib Require Import ZArith NArith Ascii String SpecFloat.
From stdpp Require Import gmap strings list fin_maps.

Local Open Scope Z_scope.

(* ================================================================== *)
(** ** Python values, dictionaries, exceptions *)

(** The values that occur in the documents of the collection: [str],
    [float] (an IEEE double, as [spec_float]) and the driver's
    [ObjectId]. *)
Inductive pyval :=
  | VStr (s : string)
  | VFloat (f : spec_float)
  | VObjectId (n : N).

Global Instance spec_float_eq_dec : EqDecision spec_float.
Proof. solve_decision. Defined.

Global Instance pyval_eq_dec : EqDecision pyval.
Proof. solve_decision. Defined.

(** A Python [dict] with string keys; also a BSON document. *)
Abbreviation document := (gmap string pyval).

Inductive db_error :=
  | ServerSelectionTimeoutError
  | AutoReconnect
  | OperationFailure (code : Z).

Inductive exn :=
  | PyMongoError (e : db_error)   (* the round trip itself failed *)
  | DuplicateKeyError             (* server reply: _id already present *)
  | WriteError                    (* server reply: write refused *)
  | ValueError
  | TypeError
  | KeyError
  | ValidationError               (* pydantic *)
  | OverflowError.                (* bson: an int beyond eight bytes *)

Global Instance db_error_eq_dec : EqDecision db_error.
Proof. solve_decision. Defined.

Global Instance exn_eq_dec : EqDecision exn.
Proof. solve_decision. Defined.

Inductive result (A : Type) :=
  | Ok (a : A)
  | Raise (e : exn).
Arguments Ok {A} a.
Arguments Raise {A} e.

(** [float(s)] and [str(f)]: the two builtin conversions that pydantic's
    field validators fall back on.  Their definition is Python's, not this
    repository's; everything below is parametric in them. *)
Class Builtins := {
  py_float : string → option spec_float;
  py_str : spec_float → string
}.

(* ================================================================== *)
(** ** app/schema/item.py *)

Record ItemBase := mkItemBase {
  name : string;
  description : string;
  price : spec_float
}.

(** [class Item(ItemBase)] adds [id : str] to the inherited fields. *)
Record Item := mkItem {
  Item_base :> ItemBase;
  id : string
}.

Global Instance ItemBase_eq_dec : EqDecision ItemBase.
Proof. solve_decision. Defined.

Global Instance Item_eq_dec : EqDecision Item.
Proof. solve_decision. Defined.

(** [vars(item)] for an [ItemBase]: the instance dictionary, one entry per
    field. *)
Definition vars (item : ItemBase) : document :=
  <["name" := VStr (name item)]>
    (<["description" := VStr (description item)]>
       (<["price" := VFloat (price item)]> ∅)).

Section Pydantic.
Context `{!Builtins}.

(** pydantic's validator of a [str] field: a [str] is kept, a number is
    converted with [str()], anything else is an error. *)
Definition str_validator (v : pyval) : option string :=
  match v with
  | VStr s => Some s
  | VFloat f => Some (py_str f)
  | VObjectId _ => None
  end.

(** pydantic's validator of a [float] field: a [float] is kept, anything
    else goes through [float()]. *)
Definition float_validator (v : pyval) : option spec_float :=
  match v with
  | VFloat f => Some f
  | VStr s => py_float s
  | VObjectId _ => None
  end.

(** The constructor [Item] applied to the entries of [kw] as keyword
    arguments: every field is required; keys that are not fields are
    ignored (pydantic's default). *)
Definition Item_init (kw : document) : result Item :=
  match kw !! "name" ≫= str_validator,
        kw !! "description" ≫= str_validator,
        kw !! "price" ≫= float_validator,
        kw !! "id" ≫= str_validator with
  | Some n, Some d, Some p, Some i => Ok (mkItem (mkItemBase n d p) i)
  | _, _, _, _ => Raise ValidationError
  end.

(** The call of [Item] with [id=v] next to the unpacked dictionary [kw]:
    Python refuses a keyword given twice before the constructor runs. *)
Definition Item_call (v : pyval) (kw : document) : result Item :=
  match kw !! "id" with
  | Some _ => Raise TypeError
  | None => Item_init (<["id" := v]> kw)
  end.
End Pydantic.

(* ================================================================== *)
(** ** The world and the monad of coroutines *)

Definition ID : string := "_id".

Inductive update_spec :=
  | Set_ (fields : document).      (* {'$set': fields} *)

(** One command sent to the server. *)
Inductive command :=
  | CmdInsert (doc : document)
  | CmdFind (flt : document) (skip : Z) (length : Z)
  | CmdFindOne (flt : document)
  | CmdUpdate (flt : document) (upd : update_spec)
  | CmdDelete (flt : document).

(** A round trip: the command and the exception it ended in, if any. *)
Definition round := (command * option exn)%type.

Record world := World {
  coll : list document;             (* the collection, natural order *)
  faults : list (option db_error);  (* fate of the coming round trips *)
  wire : list round;                (* round trips so far, oldest first *)
  urandom : nat → N;                (* os.urandom, by draw *)
  drawn : nat                       (* draws so far *)
}.

Definition M (A : Type) : Type := world → result A * world.

Definition ret {A} (a : A) : M A := fun w => (Ok a, w).

Definition raise {A} (e : exn) : M A := fun w => (Raise e, w).

Definition bind {A B} (m : M A) (k : A → M B) : M B :=
  fun w =>
    match m w with
    | (Ok a, w') => k a w'
    | (Raise e, w') => (Raise e, w')
    end.

Definition lift {A} (r : result A) : M A := fun w => (r, w).

(** The world after one draw from [os.urandom]. *)
Definition drew (w : world) : world :=
  {| coll := coll w; faults := faults w; wire := wire w;
     urandom := urandom w; drawn := S (drawn w) |}.

Notation "x <- m ;; k" := (bind m (fun x => k))
  (at level 100, m at next level, right associativity,
   format "'[v' x  <-  m  ;;  '/' k ']'").

(* ================================================================== *)
(** ** uuid.uuid4 and its string form *)

Module uuid.

Definition hexdigit (n : N) : ascii :=
  match n with
  | 0 => "0" | 1 => "1" | 2 => "2" | 3 => "3" | 4 => "4" | 5 => "5"
  | 6 => "6" | 7 => "7" | 8 => "8" | 9 => "9" | 10 => "a" | 11 => "b"
  | 12 => "c" | 13 => "d" | 14 => "e" | _ => "f"
  end%N%char.

(** The [k] low hexadecimal digits of [n], most significant first, in
    front of [acc]. *)
Fixpoint hex (k : nat) (n : N) (acc : string) : string :=
  match k with
  | O => acc
  | S k' => hex k' (n / 16)%N (String (hexdigit (n mod 16)%N) acc)
  end.

(** [UUID(bytes=b, version=4)] on the integer read from the sixteen
    bytes: variant and version bits are forced. *)
Definition UUID (b : N) : N :=
  let i := (b mod 2 ^ 128)%N in
  let i := N.ldiff i (N.shiftl 0xc000 48) in
  let i := N.lor i (N.shiftl 0x8000 48) in
  let i := N.ldiff i (N.shiftl 0xf000 64) in
  N.lor i (N.shiftl 4 76).

(** [str(u)]: thirty-two hexadecimal digits in groups 8-4-4-4-12. *)
Definition str (u : N) : string :=
  let h := hex 32 u "" in
  substring 0 8 h +:+ "-" +:+ substring 8 4 h +:+ "-" +:+
  substring 12 4 h +:+ "-" +:+ substring 16 4 h +:+ "-" +:+
  substring 20 12 h.

Definition uuid4 : M N :=
  fun w => (Ok (UUID (urandom w (drawn w))), drew w).

End uuid.

(* ================================================================== *)
(** ** The collection API of the driver *)

Record InsertOneResult := { inserted_id : pyval }.
Record UpdateResult := { matched_count : Z; modified_count : Z }.
Record DeleteResult := { deleted_count : Z }.

(** A filter document selects the documents that carry each of its
    entries. *)
Definition matches (flt d : document) : Prop :=
  map_Forall (fun k v => d !! k = Some v) flt.

Global Instance matches_dec flt d : Decision (matches flt d).
Proof. unfold matches. apply _. Defined.

(** *** What the server does with each command *)

(** [_id] carries a unique index. *)
Definition server_insert (i : pyval) (doc : document)
    (docs : list document) : result InsertOneResult * list document :=
  if decide (Exists (fun d => d !! ID = Some i) docs)
  then (Raise DuplicateKeyError, docs)
  else (Ok {| inserted_id := i |}, docs ++ [doc]).

Definition server_find_one (flt : document)
    (docs : list document) : result (option document) * list document :=
  (Ok (snd <$> list_find (matches flt) docs), docs).

Definition server_find (flt : document) (skip length : Z)
    (docs : list document) : result (list document) * list document :=
  (Ok (take (Z.to_nat length)
         (drop (Z.to_nat skip) (filter (matches flt) docs))), docs).

(** [$set] on the first match; [_id] cannot be given another value; the
    modified count tells whether the stored document changed. *)
Definition server_update (flt : document) (upd : update_spec)
    (docs : list document) : result UpdateResult * list document :=
  match list_find (matches flt) docs with
  | None => (Ok {| matched_count := 0; modified_count := 0 |}, docs)
  | Some (n, d) =>
      let '(Set_ fields) := upd in
      if decide (is_Some (fields !! ID) ∧ fields !! ID ≠ d !! ID)
      then (Raise WriteError, docs)
      else
        let d' := fields ∪ d in
        if decide (d' = d)
        then (Ok {| matched_count := 1; modified_count := 0 |}, docs)
        else (Ok {| matched_count := 1; modified_count := 1 |},
              <[n := d']> docs)
  end.

Definition server_delete (flt : document)
    (docs : list document) : result DeleteResult * list document :=
  (Ok {| deleted_count := Z.of_nat (length (filter (matches flt) docs)) |},
   filter (fun d => ¬ matches flt d) docs).

(** *** Round trips *)

Definition outcome {A} (r : result A) : option exn :=
  match r with
  | Ok _ => None
  | Raise e => Some e
  end.

(** The world after a round trip: one entry of the fault schedule is
    used up and the round trip is on record. *)
Definition sent (c : command) (e : option exn) (docs : list document)
    (w : world) : world :=
  {| coll := docs; faults := tail (faults w); wire := wire w ++ [(c, e)];
     urandom := urandom w; drawn := drawn w |}.

(** A command either fails on the way ([faults] says so) and leaves the
    collection alone, or reaches the server. *)
Definition round_trip {A} (c : command)
    (server : list document → result A * list document) : M A :=
  fun w =>
    match head (faults w) with
    | Some (Some e) =>
        (Raise (PyMongoError e), sent c (Some (PyMongoError e)) (coll w) w)
    | _ =>
        let r := server (coll w) in
        (r.1, sent c (outcome r.1) r.2 w)
    end.

(** A command that the driver may refuse to encode.  The server is
    selected and the connection obtained first (where [faults] strike);
    then the command is encoded, and a refusal there is raised with
    nothing sent; then it goes to the server as any other. *)
Definition encoded_round_trip {A} (c : command) (refusal : option exn)
    (server : list document → result A * list document) : M A :=
  fun w =>
    match head (faults w) with
    | Some (Some e) =>
        (Raise (PyMongoError e), sent c (Some (PyMongoError e)) (coll w) w)
    | _ =>
        match refusal with
        | Some x => (Raise x, w)
        | None =>
            let r := server (coll w) in
            (r.1, sent c (outcome r.1) r.2 w)
        end
    end.

Module Motor.

(** A document without [_id] is given an [ObjectId] by the driver:
    twelve bytes, taken here from the entropy source. *)
Definition ensure_id (doc : document) : M (pyval * document) :=
  match doc !! ID with
  | Some i => ret (i, doc)
  | None =>
      fun w =>
        let oid := VObjectId (urandom w (drawn w) mod 2 ^ 96)%N in
        (Ok (oid, <[ID := oid]> doc), drew w)
  end.

Definition insert_one (doc : document) : M InsertOneResult :=
  p <- ensure_id doc ;;
  round_trip (CmdInsert p.2) (server_insert p.1 p.2).

Definition find_one (flt : document) : M (option document) :=
  round_trip (CmdFindOne flt) (server_find_one flt).

Definition update_one (flt : document) (upd : update_spec)
    : M UpdateResult :=
  round_trip (CmdUpdate flt upd) (server_update flt upd).

Definition delete_many (flt : document) : M DeleteResult :=
  round_trip (CmdDelete flt) (server_delete flt).

(** Cursors are lazy: [find] and [skip] only build the query, [to_list]
    sends it.  Both [skip] and [to_list] check the sign of their argument
    first.  The skip goes into the command as a BSON integer, of eight
    bytes at most: a larger one is an OverflowError when the command is
    encoded. *)
Record Cursor := { c_filter : document; c_skip : Z }.

Definition find (flt : document) : Cursor :=
  {| c_filter := flt; c_skip := 0 |}.

Definition skip (n : Z) (c : Cursor) : M Cursor :=
  if decide (n < 0) then raise ValueError
  else ret {| c_filter := c_filter c; c_skip := n |}.

Definition bson_int (n : Z) : option exn :=
  if decide (2 ^ 63 ≤ n) then Some OverflowError else None.

Definition to_list (length : Z) (c : Cursor) : M (list document) :=
  if decide (length < 0) then raise ValueError
  else encoded_round_trip (CmdFind (c_filter c) (c_skip c) length)
         (bson_int (c_skip c))
         (server_find (c_filter c) (c_skip c) length).

End Motor.

(** [d[k]] *)
Definition subscript (d : document) (k : string) : M pyval :=
  match d !! k with
  | Some v => ret v
  | None => raise KeyError
  end.

(** A [for] loop that appends one result per element. *)
Fixpoint for_each {A B} (f : A → M B) (l : list A) : M (list B) :=
  match l with
  | [] => ret []
  | x :: l' => y <- f x ;; ys <- for_each f l' ;; ret (y :: ys)
  end.

(* ================================================================== *)
(** ** app/crud/item.py *)

Module crud_item.
Section crud_item.
Context `{!Builtins}.

(** [vars(item)] is the instance dictionary itself, so the assignment of
    [document[ID]] also lands in [item]; the caller drops [item]. *)
Definition create_item (item : ItemBase) : M Item :=
  let document := vars item in
  u <- uuid.uuid4 ;;
  let document := <[ID := VStr (uuid.str u)]> document in
  result <- Motor.insert_one document ;;
  lift (Item_call (inserted_id result) document).

Definition get_all_items (skip limit : Z) : M (list Item) :=
  cursor <- Motor.skip skip (Motor.find ∅) ;;
  results <- Motor.to_list limit cursor ;;
  for_each (fun result => v <- subscript result ID ;;
                          lift (Item_call v result)) results.

Definition read_item (id_ : string) : M (option Item) :=
  item <- Motor.find_one {[ID := VStr id_]} ;;
  match item with
  | None => ret None
  | Some item =>
      v <- subscript item ID ;;
      it <- lift (Item_call v item) ;;
      ret (Some it)
  end.

Definition update_item (id_ : string) (item : ItemBase)
    : M (option Item) :=
  let document := vars item in
  result <- Motor.update_one {[ID := VStr id_]} (Set_ document) ;;
  if decide (modified_count result = 0) then ret None
  else
    it <- lift (Item_call (VStr id_) document) ;;
    ret (Some it).

Definition delete_item (id_ : string) : M Z :=
  result <- Motor.delete_many {[ID := VStr id_]} ;;
  ret (deleted_count result).

End crud_item.
End crud_item.

(* ================================================================== *)
(** ** app/api/api_v1/endpoints/item.py *)

Definition HTTP_200_OK : Z := 200.
Definition HTTP_201_CREATED : Z := 201.
Definition HTTP_204_NO_CONTENT : Z := 204.
Definition HTTP_304_NOT_MODIFIED : Z := 304.
Definition HTTP_404_NOT_FOUND : Z := 404.
Definition HTTP_422_UNPROCESSABLE_ENTITY : Z := 422.

Inductive content :=
  | Empty
  | JItem (it : Item)
  | JItems (its : list Item)
  | JDetail.                 (* the detail of a validation error *)

Record Response := { status_code : Z; body : content }.

(** [Response(status_code=s)] *)
Definition Response_ (s : Z) : Response :=
  {| status_code := s; body := Empty |}.

(** A path operation returns either a value for the declared response
    model or a [Response] of its own. *)
Inductive returned (A : Type) :=
  | Model (a : A)
  | Direct (r : Response).
Arguments Model {A} a.
Arguments Direct {A} r.

Module endpoints.
Section endpoints.
Context `{!Builtins}.

Definition get_item (item_id : string) : M (returned Item) :=
  item <- crud_item.read_item item_id ;;
  match item with
  | None => ret (Direct (Response_ HTTP_404_NOT_FOUND))
  | Some item => ret (Model item)
  end.

Definition get_all_items (skip limit : Z) : M (returned (list Item)) :=
  items <- crud_item.get_all_items skip limit ;;
  ret (Model items).

Definition post_item (item : ItemBase) : M (returned Item) :=
  item <- crud_item.create_item item ;;
  ret (Model item).

Definition update_item (item_id : string) (item : ItemBase)
    : M (returned Item) :=
  db_item <- crud_item.read_item item_id ;;
  match db_item with
  | None => ret (Direct (Response_ HTTP_404_NOT_FOUND))
  | Some _ =>
      item <- crud_item.update_item item_id item ;;
      match item with
      | None => ret (Direct (Response_ HTTP_304_NOT_MODIFIED))
      | Some item => ret (Model item)
      end
  end.

Definition delete_item (item_id : string) : M (returned unit) :=
  delete_count <- crud_item.delete_item item_id ;;
  if decide (delete_count = 0)
  then ret (Direct (Response_ HTTP_404_NOT_FOUND))
  else ret (Direct (Response_ HTTP_204_NO_CONTENT)).

End endpoints.
End endpoints.

(* ================================================================== *)
(** ** Routing: the decorators, [api.py] and [main.py] *)

(** The floats that JSON has a number for. *)
Definition finite_float (f : spec_float) : Prop :=
  match f with
  | S754_zero _ | S754_finite _ _ _ => True
  | S754_infinity _ | S754_nan => False
  end.

Global Instance finite_float_dec f : Decision (finite_float f).
Proof. destruct f; simpl; apply _. Defined.

(** The body of a response made from a returned value:
    [json.dumps(..., allow_nan=False)] raises ValueError on an infinite
    or NaN price. *)
Definition render_item (it : Item) : result content :=
  if decide (finite_float (price it)) then Ok (JItem it)
  else Raise ValueError.

Definition render_items (its : list Item) : result content :=
  if decide (Forall (fun it : Item => finite_float (price it)) its)
  then Ok (JItems its)
  else Raise ValueError.

Definition render_none (_ : unit) : result content := Ok Empty.

(** What the decorator does with the operation's return value: a value
    is rendered and sent under the declared status code, after the
    operation has run; a [Response] goes out as it is. *)
Definition route {A} (status : Z) (render : A → result content)
    (operation : M (returned A)) : M Response :=
  r <- operation ;;
  match r with
  | Model a =>
      b <- lift (render a) ;;
      ret {| status_code := status; body := b |}
  | Direct resp => ret resp
  end.

(** The answer of the framework to a request that fails validation. *)
Definition unprocessable : Response :=
  {| status_code := HTTP_422_UNPROCESSABLE_ENTITY; body := JDetail |}.

(** A query parameter as it arrives: text that [int] reads as [z], or
    other text. *)
Inductive qvalue :=
  | QInt (z : Z)
  | QText (s : string).

(** A parameter declared [p: int = default]. *)
Definition int_query (default : Z) (q : option qvalue) : option Z :=
  match q with
  | None => Some default
  | Some (QInt z) => Some z
  | Some (QText _) => None
  end.

(** The parameters of [get_all_items(skip: int = 0, limit: int = 100)]. *)
Definition get_all_items_params (skip limit : option qvalue)
    : option (Z * Z) :=
  match int_query 0 skip, int_query 100 limit with
  | Some s, Some l => Some (s, l)
  | _, _ => None
  end.

(** The requests, as they reach the path operations: the path gives
    the [item_id], and the body of a POST or PUT has passed the
    validation of [ItemBase] (a body that has not is answered 422 by the
    framework and reaches nothing below).  The query of the listing is
    carried as it arrives. *)
Inductive request :=
  | GET_item (item_id : string)
  | GET_items (skip limit : option qvalue)
  | POST_item (item : ItemBase)
  | PUT_item (item_id : string) (item : ItemBase)
  | DELETE_item (item_id : string).

Section app.
Context `{!Builtins}.

Definition app (req : request) : M Response :=
  match req with
  | GET_item item_id =>
      route HTTP_200_OK render_item (endpoints.get_item item_id)
  | GET_items skip limit =>
      match get_all_items_params skip limit with
      | Some (s, l) =>
          route HTTP_200_OK render_items (endpoints.get_all_items s l)
      | None => ret unprocessable
      end
  | POST_item item =>
      route HTTP_201_CREATED render_item (endpoints.post_item item)
  | PUT_item item_id item =>
      route HTTP_200_OK render_item (endpoints.update_item item_id item)
  | DELETE_item item_id =>
      route HTTP_200_OK render_none (endpoints.delete_item item_id)
  end.


End app.

(* ================================================================== *)
(** ** Vocabulary of the statements *)

(** The document under which an item is stored. *)
Definition doc_of_item (it : Item) : document :=
  <[ID := VStr (id it)]> (vars it).

(** The [_id] of every document, in collection order. *)
Definition ids (docs : list document) : list (option pyval) :=
  (fun d : document => d !! ID) <$> docs.

(** The unique index on [_id]. *)
Definition unique_ids (docs : list document) : Prop := NoDup (ids docs).

Definition by_id (i : string) : document := {[ID := VStr i]}.

(** No document of the collection carries the identifier. *)
Definition unknown_id (i : string) (docs : list document) : Prop :=
  Forall (fun d : document => d !! ID ≠ Some (VStr i)) docs.

(** The identifier that the next [uuid4()] yields. *)
Definition next_id (w : world) : string :=
  uuid.str (uuid.UUID (urandom w (drawn w))).

(** The next [n] round trips are not cut short by a fault. *)
Definition calm (n : nat) (w : world) : Prop :=
  Forall (fun f => f = None) (take n (faults w)).

(** The round trips made between two worlds. *)
Definition since (w w' : world) : list round :=
  drop (length (wire w)) (wire w').

(** What a step may do to the world: the collection moves along [S],
    and every command put on the wire satisfies [P]. *)
Definition frame (P : command → Prop) (S : relation (list document))
    (w w' : world) : Prop :=
  S (coll w) (coll w') ∧
  ∃ new, wire w' = wire w ++ new ∧ Forall (fun r : round => P r.1) new.

(** Three ways for the identifiers to move: not at all, by removal, by
    addition at the end. *)
Definition same_ids : relation (list document) :=
  fun a b => ids b = ids a.

Definition fewer_ids : relation (list document) :=
  fun a b => ids b `sublist_of` ids a.

Definition more_ids : relation (list document) :=
  fun a b => ids a `prefix_of` ids b.

(** The collection holds items only, each under an id of its own. *)
Definition well_stored (docs : list document) : Prop :=
  ∃ its : list Item, docs = doc_of_item <$> its ∧ NoDup (id <$> its).

Definition stays_stored : relation (list document) :=
  fun a b => well_stored a → well_stored b.

(** A computation all of whose runs stay within a relation on worlds. *)
Definition keeps {A} (R : relation world) (m : M A) : Prop :=
  ∀ w, R w (m w).2.

(** A computation in which a failed round trip is the last one made and
    its exception is the outcome. *)
Definition propagates {A} (m : M A) : Prop :=
  ∀ w, ∃ new,
    wire (m w).2 = wire w ++ new ∧
    ∀ c e, (c, Some e) ∈ new →
      (m w).1 = Raise e ∧ last new = Some (c, Some e).

(** The keys a written [$set] document may have. *)
Definition sets_fields_only (c : command) : Prop :=
  ∀ flt upd, c = CmdUpdate flt upd →
    ∃ fields, upd = Set_ fields ∧
      dom fields = {["name"; "description"; "price"]}.

(** The reading of "only non-negative skip and limit are accepted" for
    one pair of query parameters. *)
Definition accepted_nonnegative (qskip qlimit : option qvalue) : Prop :=
  ∀ skip limit,
    get_all_items_params qskip qlimit = Some (skip, limit) →
    0 ≤ skip ∧ 0 ≤ limit.

(** The requests whose body, if they have one, carries a price that
    JSON has a number for. *)
Definition finite_body (req : request) : Prop :=
  match req with
  | POST_item item | PUT_item _ item => finite_float (price item)
  | GET_item _ | GET_items _ _ | DELETE_item _ => True
  end.

(* ================================================================== *)
(** ** Worlds to run on *)

(** A Python in which neither conversion ever applies usefully; the
    example runs below do not depend on them. *)
Definition no_conversions : Builtins :=
  {| py_float := fun _ => None; py_str := fun _ => "nan" |}.

Definition empty_world : world :=
  {| coll := []; faults := []; wire := []; urandom := fun n => N.of_nat n;
     drawn := 0 |}.

Definition pen : ItemBase :=
  {| name := "pen"; description := "blue pen";
     price := S754_finite false 3 (-1) |}.

Definition pen2 : ItemBase :=
  {| name := "pen"; description := "blue pen";
     price := S754_finite false 1 1 |}.

Definition stored_pen : Item := mkItem pen "a1".

(** One item stored, the database reachable. *)
Definition pen_world : world :=
  {| coll := [doc_of_item stored_pen]; faults := []; wire := [];
     urandom := fun n => N.of_nat n; drawn := 0 |}.

(** The same, with the server out of reach at the next round trip. *)
Definition down_world : world :=
  {| coll := [doc_of_item stored_pen];
     faults := [Some ServerSelectionTimeoutError]; wire := [];
     urandom := fun n => N.of_nat n; drawn := 0 |}.

(** The commands that change the collection. *)
Definition is_write (c : command) : Prop :=
  match c with
  | CmdInsert _ | CmdUpdate _ _ | CmdDelete _ => True
  | CmdFind _ _ _ | CmdFindOne _ => False
  end.

(** A computation that makes at most [n] round trips. *)
Definition sends {A} (n : nat) (m : M A) : Prop :=
  ∀ w, ∃ new, wire (m w).2 = wire w ++ new ∧ (length new ≤ n)%nat.

(** The most round trips a request is allowed. *)
Definition round_trip_budget (req : request) : nat :=
  match req with
  | PUT_item _ _ => 2
  | _ => 1
  end.

(** The documents that a listing with these bounds is made from. *)
Definition page (skip limit : Z) (docs : list document) : list document :=
  take (Z.to_nat limit) (drop (Z.to_nat skip) docs).

(** A stored document made into an [Item], as the listing and the
    lookup do it: the [_id] is read, then the constructor is called. *)
Definition validate `{!Builtins} (d : document) : result Item :=
  match d !! ID with
  | None => Raise KeyError
  | Some v => Item_call v d
  end.

Fixpoint validate_all `{!Builtins} (docs : list document)
    : result (list Item) :=
  match docs with
  | [] => Ok []
  | d :: docs' =>
      match validate d with
      | Raise e => Raise e
      | Ok it =>
          match validate_all docs' with
          | Raise e => Raise e
          | Ok its => Ok (it :: its)
          end
      end
  end.


Definition stored_ink : Item := mkItem pen2 "b2".

Definition stored_cap : Item :=
  mkItem {| name := "cap"; description := "";
            price := S754_zero false |} "c3".

(** Three items stored. *)
Definition shelf_world : world :=
  {| coll := doc_of_item <$> [stored_pen; stored_ink; stored_cap];
     faults := []; wire := []; urandom := fun n => N.of_nat n;
     drawn := 0 |}.



(** A world whose next identifier is already taken. *)
Definition clash_world : world :=
  {| coll := [doc_of_item (mkItem pen "00000000-0000-4000-8000-000000000000")];
     faults := []; wire := []; urandom := fun _ => 0%N; drawn := 0 |}.

(** An item whose price is [float('inf')], as the body
    [{"name": "gold", "description": "", "price": 1e999}] gives it. *)
Definition gold : ItemBase :=
  {| name := "gold"; description := ""; price := S754_infinity false |}.

Definition stored_gold : Item :=
  mkItem gold "00000000-0000-4000-8000-000000000000".

(** The collection after [gold] has been posted to the empty one. *)
Definition gold_world : world :=
  {| coll := [doc_of_item stored_gold]; faults := []; wire := [];
     urandom := fun n => N.of_nat n; drawn := 1 |}.

(** The worlds the service gets to, starting on an empty collection. *)
Inductive reachable `{!Builtins} : world → Prop :=
  | reachable_start w : coll w = [] → reachable w
  | reachable_step w req : reachable w → reachable (app req w).2.

(* ================================================================== *)
(** ** Basic facts *)

Lemma bind_Ok {A B} (m : M A) (k : A → M B) w a w' :
  m w = (Ok a, w') → bind m k w = k a w'.
Proof. intros E. unfold bind. by rewrite E. Qed.

Lemma bind_Raise {A B} (m : M A) (k : A → M B) w e w' :
  m w = (Raise e, w') → bind m k w = (Raise e, w').
Proof. intros E. unfold bind. by rewrite E. Qed.

Lemma route_run {A} status (render : A → result content)
    (op : M (returned A)) w :
  route status render op w =
    (match (op w).1 with
     | Ok (Model a) =>
         match render a with
         | Ok b => Ok {| status_code := status; body := b |}
         | Raise e => Raise e
         end
     | Ok (Direct resp) => Ok resp
     | Raise e => Raise e
     end, (op w).2).
Proof.
  unfold route, bind, lift, ret.
  destruct (op w) as [[[a|resp]|e] w1]; simpl; [|done..].
  by destruct (render a).
Qed.

Lemma render_item_finite (it : Item) :
  finite_float (price it) → render_item it = Ok (JItem it).
Proof. intros Hf. unfold render_item. by rewrite decide_True. Qed.

Lemma render_item_Ok (it : Item) b :
  render_item it = Ok b → finite_float (price it) ∧ b = JItem it.
Proof. unfold render_item. case_decide; [|done]. by intros [= <-]. Qed.

Lemma render_items_finite (its : list Item) :
  Forall (fun it : Item => finite_float (price it)) its →
  render_items its = Ok (JItems its).
Proof. intros Hf. unfold render_items. by rewrite decide_True. Qed.


Lemma calm_S n w c e docs : calm (S n) w → calm n (sent c e docs w).
Proof.
  unfold calm. simpl. destruct (faults w) as [|f fs]; simpl.
  - intros _. by rewrite take_nil.
  - by inversion 1.
Qed.

Lemma calm_le n m w : (m <= n)%nat → calm n w → calm m w.
Proof.
  unfold calm. intros Hle Hn.
  replace m with (m `min` n)%nat by lia.
  rewrite <- take_take. by apply Forall_take.
Qed.

Lemma round_trip_calm {A} c
    (server : list document → result A * list document) w :
  calm 1 w →
  round_trip c server w =
    ((server (coll w)).1,
     sent c (outcome (server (coll w)).1) (server (coll w)).2 w).
Proof.
  unfold calm, round_trip. destruct (faults w) as [|[e|] fs]; simpl; try done.
  inversion 1; simplify_eq.
Qed.

Lemma round_trip_fault {A} c
    (server : list document → result A * list document) w e :
  head (faults w) = Some (Some e) →
  round_trip c server w =
    (Raise (PyMongoError e), sent c (Some (PyMongoError e)) (coll w) w).
Proof. unfold round_trip. by intros ->. Qed.

Lemma encoded_round_trip_calm {A} c
    (server : list document → result A * list document) w :
  calm 1 w →
  encoded_round_trip c None server w =
    ((server (coll w)).1,
     sent c (outcome (server (coll w)).1) (server (coll w)).2 w).
Proof.
  unfold calm, encoded_round_trip.
  destruct (faults w) as [|[e|] fs]; simpl; try done.
  inversion 1; simplify_eq.
Qed.

Lemma encoded_round_trip_refused {A} c x
    (server : list document → result A * list document) w :
  calm 1 w →
  encoded_round_trip c (Some x) server w = (Raise x, w).
Proof.
  unfold calm, encoded_round_trip.
  destruct (faults w) as [|[e|] fs]; simpl; try done.
  inversion 1; simplify_eq.
Qed.

Lemma encoded_round_trip_fault {A} c refusal
    (server : list document → result A * list document) w e :
  head (faults w) = Some (Some e) →
  encoded_round_trip c refusal server w =
    (Raise (PyMongoError e), sent c (Some (PyMongoError e)) (coll w) w).
Proof. unfold encoded_round_trip. by intros ->. Qed.

Lemma bson_int_small n : n < 2 ^ 63 → Motor.bson_int n = None.
Proof. intros Hn. unfold Motor.bson_int. by rewrite decide_False by lia. Qed.

Lemma bson_int_big n :
  2 ^ 63 ≤ n → Motor.bson_int n = Some OverflowError.
Proof. intros Hn. unfold Motor.bson_int. by rewrite decide_True. Qed.

Lemma matches_by_id i (d : document) :
  matches (by_id i) d ↔ d !! ID = Some (VStr i).
Proof. unfold matches, by_id. by rewrite map_Forall_singleton. Qed.

Lemma vars_lookup_id (item : ItemBase) : vars item !! "id" = None.
Proof. done. Qed.

Lemma vars_lookup_ID (item : ItemBase) : vars item !! ID = None.
Proof. done. Qed.

Lemma doc_of_item_ID it : doc_of_item it !! ID = Some (VStr (id it)).
Proof. unfold doc_of_item. apply lookup_insert_eq. Qed.

Lemma dom_vars (item : ItemBase) :
  dom (vars item) = {["name"; "description"; "price"]}.
Proof.
  unfold vars. rewrite !dom_insert_L, dom_empty_L. set_solver.
Qed.

Section Item_facts.
Context `{!Builtins}.

Lemma Item_call_vars i (item : ItemBase) :
  Item_call (VStr i) (vars item) = Ok (mkItem item i).
Proof. by destruct item. Qed.

Lemma Item_call_stored v i (item : ItemBase) :
  Item_call (VStr i) (<[ID := v]> (vars item)) = Ok (mkItem item i).
Proof. by destruct item. Qed.

Lemma Item_call_doc it : Item_call (VStr (id it)) (doc_of_item it) = Ok it.
Proof. destruct it as [item i]. apply Item_call_stored. Qed.
End Item_facts.

(** *** Looking a document up by identifier *)

Lemma find_by_id_unknown i docs :
  unknown_id i docs → list_find (matches (by_id i)) docs = None.
Proof.
  intros Hun. apply list_find_None. eapply Forall_impl; [exact Hun|].
  intros d Hd Hm. by apply Hd, matches_by_id.
Qed.

Lemma find_by_id_known i docs :
  ¬ unknown_id i docs → is_Some (list_find (matches (by_id i)) docs).
Proof.
  intros Hk. destruct (list_find (matches (by_id i)) docs) eqn:E; [done|].
  exfalso. apply Hk. apply list_find_None in E.
  eapply Forall_impl; [exact E|].
  intros d Hd Hm. by apply Hd, matches_by_id.
Qed.

Lemma find_by_id_unique i docs (d : document) :
  unique_ids docs → d ∈ docs → d !! ID = Some (VStr i) →
  ∃ n, list_find (matches (by_id i)) docs = Some (n, d).
Proof.
  intros Hnd Hin Hid.
  destruct (list_find_elem_of (matches (by_id i)) docs d Hin) as [[n d'] E].
  { by apply matches_by_id. }
  exists n. rewrite E. do 2 f_equal.
  apply list_find_Some in E as (Hn & Hm & _).
  apply matches_by_id in Hm.
  apply list_elem_of_lookup in Hin as [m Hm'].
  assert (n = m) as ->; [|congruence].
  eapply (NoDup_lookup (ids docs)); [exact Hnd| |].
  - unfold ids. rewrite list_lookup_fmap, Hn. simpl. exact (eq_refl _).
  - unfold ids. rewrite list_lookup_fmap, Hm'. simpl. congruence.
Qed.

Section Repository_facts.
Context `{!Builtins}.

Lemma find_one_calm flt w :
  calm 1 w →
  Motor.find_one flt w =
    (Ok (snd <$> list_find (matches flt) (coll w)),
     sent (CmdFindOne flt) None (coll w) w).
Proof. intros Hc. unfold Motor.find_one. by rewrite round_trip_calm. Qed.

Lemma read_item_found i w n it :
  calm 1 w →
  list_find (matches (by_id i)) (coll w) = Some (n, doc_of_item it) →
  crud_item.read_item i w =
    (Ok (Some it), sent (CmdFindOne (by_id i)) None (coll w) w).
Proof.
  intros Hc E. unfold crud_item.read_item.
  erewrite bind_Ok; [|by apply find_one_calm].
  fold (by_id i). rewrite E. simpl.
  apply list_find_Some in E as (_ & Hm & _).
  apply matches_by_id in Hm. rewrite doc_of_item_ID in Hm.
  unfold subscript, bind, lift, ret.
  rewrite doc_of_item_ID, Item_call_doc. done.
Qed.

Lemma read_item_missing i w :
  calm 1 w → unknown_id i (coll w) →
  crud_item.read_item i w =
    (Ok None, sent (CmdFindOne (by_id i)) None (coll w) w).
Proof.
  intros Hc Hun. unfold crud_item.read_item.
  erewrite bind_Ok; [|by apply find_one_calm].
  fold (by_id i). by rewrite find_by_id_unknown.
Qed.

Lemma get_item_found i w n it :
  calm 1 w →
  list_find (matches (by_id i)) (coll w) = Some (n, doc_of_item it) →
  (app (GET_item i) w).1 =
    match render_item it with
    | Ok b => Ok {| status_code := 200; body := b |}
    | Raise e => Raise e
    end.
Proof.
  intros Hc E. unfold app. rewrite route_run.
  unfold endpoints.get_item, bind.
  by rewrite (read_item_found _ _ _ _ Hc E).
Qed.

Lemma get_item_missing i w :
  calm 1 w → unknown_id i (coll w) →
  (app (GET_item i) w).1 = Ok {| status_code := 404; body := Empty |}.
Proof.
  intros Hc Hun. unfold app. rewrite route_run.
  unfold endpoints.get_item, bind.
  by rewrite (read_item_missing _ _ Hc Hun).
Qed.

(** C4, as the code has it. Get one: if an item with the requested id
    is stored and its price is a finite number, the response is 200
    with that item; if no document carries the id, the response is
    404. *)
Theorem get_item_200_or_404 (item_id : string) (w : world) :
  calm 1 w →
  unique_ids (coll w) →
  (∀ it : Item, id it = item_id → doc_of_item it ∈ coll w →
     finite_float (price it) →
     (app (GET_item item_id) w).1 =
       Ok {| status_code := 200; body := JItem it |}) ∧
  (unknown_id item_id (coll w) →
     (app (GET_item item_id) w).1 =
       Ok {| status_code := 404; body := Empty |}).
Proof.
  intros Hc Hu. split.
  - intros it <- Hin Hfin.
    destruct (find_by_id_unique (id it) (coll w) (doc_of_item it))
      as [n E]; [done|done|apply doc_of_item_ID|].
    rewrite (get_item_found _ _ _ _ Hc E).
    by rewrite render_item_finite.
  - intros Hun. by apply get_item_missing.
Qed.
End Repository_facts.

(** *** The string form of a UUID *)

Lemma length_append (s1 s2 : string) :
  String.length (s1 +:+ s2) = (String.length s1 + String.length s2)%nat.
Proof. induction s1 as [|a s1 IH]; simpl; [done|]. by rewrite IH. Qed.

Lemma length_substring (s : string) (n m : nat) :
  (n + m <= String.length s)%nat → String.length (substring n m s) = m.
Proof.
  revert n m. induction s as [|a s IH]; intros n m Hle; simpl in *.
  - destruct n, m; simpl; lia.
  - destruct n as [|n].
    + destruct m as [|m]; simpl; [done|]. f_equal. apply IH. lia.
    + apply IH. lia.
Qed.

Lemma length_hex k n acc :
  String.length (uuid.hex k n acc) = (k + String.length acc)%nat.
Proof.
  revert n acc. induction k as [|k IH]; intros n acc; simpl; [done|].
  rewrite IH. simpl. lia.
Qed.

Lemma uuid_str_length u : String.length (uuid.str u) = 36%nat.
Proof.
  unfold uuid.str.
  assert (String.length (uuid.hex 32 u "") = 32%nat) as Hh
    by (by rewrite length_hex).
  rewrite !length_append, !length_substring by (rewrite Hh; lia).
  done.
Qed.

Lemma uuid_str_nonempty u : uuid.str u ≠ "".
Proof.
  intros E. pose proof (uuid_str_length u) as Hl. by rewrite E in Hl.
Qed.

Lemma calm_drew n w : calm n (drew w) ↔ calm n w.
Proof. done. Qed.

Section Create_facts.
Context `{!Builtins}.

Lemma create_item_fresh (item : ItemBase) w :
  calm 1 w → unknown_id (next_id w) (coll w) →
  let it := mkItem item (next_id w) in
  crud_item.create_item item w =
    (Ok it,
     sent (CmdInsert (doc_of_item it)) None (coll w ++ [doc_of_item it])
       (drew w)).
Proof.
  intros Hc Hun it. unfold crud_item.create_item, bind.
  unfold uuid.uuid4 at 1. fold (next_id w).
  unfold Motor.insert_one, Motor.ensure_id, bind.
  rewrite lookup_insert_eq. unfold ret at 1.
  rewrite round_trip_calm by by apply calm_drew.
  unfold server_insert; simpl coll.
  rewrite decide_False.
  2:{ intros Hex. apply Exists_exists in Hex as (d & Hd & E).
      eapply Forall_forall in Hun; [|exact Hd]. done. }
  simpl. unfold lift. rewrite Item_call_stored. reflexivity.
Qed.

Lemma create_item_clash (item : ItemBase) w :
  calm 1 w → ¬ unknown_id (next_id w) (coll w) →
  crud_item.create_item item w =
    (Raise DuplicateKeyError,
     sent (CmdInsert (doc_of_item (mkItem item (next_id w))))
       (Some DuplicateKeyError) (coll w) (drew w)).
Proof.
  intros Hc Hk. unfold crud_item.create_item, bind.
  unfold uuid.uuid4 at 1. fold (next_id w).
  unfold Motor.insert_one, Motor.ensure_id, bind.
  rewrite lookup_insert_eq. unfold ret at 1.
  rewrite round_trip_calm by by apply calm_drew.
  unfold server_insert; simpl coll.
  rewrite decide_True; [reflexivity|].
  apply not_Forall_Exists in Hk; [|apply _].
  eapply Exists_impl; [exact Hk|]. simpl. intros d Hd.
  by destruct (decide (d !! ID = Some (VStr (next_id w)))).
Qed.

Lemma post_item_fresh (item : ItemBase) w :
  calm 1 w → unknown_id (next_id w) (coll w) →
  let it := mkItem item (next_id w) in
  app (POST_item item) w =
    (match render_item it with
     | Ok b => Ok {| status_code := 201; body := b |}
     | Raise e => Raise e
     end,
     sent (CmdInsert (doc_of_item it)) None (coll w ++ [doc_of_item it])
       (drew w)).
Proof.
  intros Hc Hun it. unfold app. rewrite route_run.
  unfold endpoints.post_item, bind.
  by rewrite create_item_fresh.
Qed.

Lemma post_item_clash (item : ItemBase) w :
  calm 1 w → ¬ unknown_id (next_id w) (coll w) →
  (app (POST_item item) w).1 = Raise DuplicateKeyError.
Proof.
  intros Hc Hk. unfold app. rewrite route_run.
  unfold endpoints.post_item, bind.
  by rewrite create_item_clash.
Qed.

Lemma get_item_after_post (item : ItemBase) w :
  calm 2 w → unknown_id (next_id w) (coll w) →
  finite_float (price item) →
  let it := mkItem item (next_id w) in
  (app (GET_item (next_id w))
     (sent (CmdInsert (doc_of_item it)) None (coll w ++ [doc_of_item it])
        (drew w))).1 =
    Ok {| status_code := 200; body := JItem it |}.
Proof.
  intros Hc Hun Hfin it.
  erewrite (get_item_found _ _ (length (coll w)) it).
  - by rewrite render_item_finite.
  - apply calm_S. by apply calm_drew.
  - simpl coll. apply list_find_Some. split_and!.
    + by rewrite lookup_app_r, Nat.sub_diag.
    + apply matches_by_id, doc_of_item_ID.
    + intros j d Hj Hlt Hm. apply matches_by_id in Hm.
      rewrite lookup_app_l in Hj by done.
      eapply Forall_lookup_1 in Hun; [|exact Hj]. done.
Qed.

(** C1, as the code has it. Create, then get, for an item whose price
    is a finite number.  POST answers 201 whenever the generated id is
    not yet taken; and every POST that is answered is answered 201 with
    the supplied name, description and price and the generated,
    non-empty id, after which a GET of that id answers 200 with the
    same item. *)
Theorem create_then_get (item : ItemBase) (w : world) :
  calm 2 w →
  finite_float (price item) →
  let created := app (POST_item item) w in
  let it := mkItem item (next_id w) in
  (unknown_id (next_id w) (coll w) →
     created.1 = Ok {| status_code := 201; body := JItem it |}) ∧
  (∀ resp, created.1 = Ok resp →
     resp = {| status_code := 201; body := JItem it |} ∧
     id it ≠ "" ∧
     name it = name item ∧ description it = description item ∧
     price it = price item ∧
     (app (GET_item (id it)) created.2).1 =
       Ok {| status_code := 200; body := JItem it |}).
Proof.
  intros Hc Hfin created it.
  assert (calm 1 w) as Hc1 by (eapply calm_le; [|exact Hc]; lia).
  assert (render_item it = Ok (JItem it)) as Hrender
    by by apply render_item_finite.
  split.
  { intros Hun. unfold created. rewrite post_item_fresh by done.
    fold it. by rewrite Hrender. }
  intros resp Hok.
  destruct (decide (unknown_id (next_id w) (coll w))) as [Hun|Hk].
  2:{ unfold created in Hok. by rewrite post_item_clash in Hok. }
  unfold created in *. rewrite post_item_fresh in * by done.
  fold it in Hok |- *. rewrite Hrender in Hok.
  simpl in Hok. injection Hok as <-.
  split_and!; [done|apply uuid_str_nonempty|done..|].
  by apply get_item_after_post.
Qed.
End Create_facts.

(** *** Deleting *)

Lemma filter_by_id i (docs : list document) :
  filter (matches (by_id i)) docs =
  filter (fun d : document => d !! ID = Some (VStr i)) docs.
Proof. apply list_filter_iff. intros d. apply matches_by_id. Qed.

Lemma filter_not_by_id i (docs : list document) :
  filter (fun d => ¬ matches (by_id i) d) docs =
  filter (fun d : document => d !! ID ≠ Some (VStr i)) docs.
Proof.
  apply list_filter_iff. intros d. by rewrite matches_by_id.
Qed.

Lemma unknown_id_filter i (docs : list document) :
  unknown_id i (filter (fun d : document => d !! ID ≠ Some (VStr i)) docs).
Proof.
  apply Forall_forall. intros d Hd. by apply list_elem_of_filter in Hd as [? _].
Qed.

Lemma unknown_id_count i (docs : list document) :
  unknown_id i docs ↔
  length (filter (fun d : document => d !! ID = Some (VStr i)) docs) = 0%nat.
Proof.
  rewrite length_zero_iff_nil. split.
  - intros Hun. induction Hun as [|d docs Hd _ IH]; [done|].
    by rewrite filter_cons_False.
  - intros E. apply Forall_forall. intros d Hd Hid.
    eapply (filter_nil_not_elem_of _ _ d E); [exact Hid|exact Hd].
Qed.

Section Delete_facts.
Context `{!Builtins}.

Lemma delete_item_calm i w :
  calm 1 w →
  crud_item.delete_item i w =
    (Ok (Z.of_nat (length (filter
           (fun d : document => d !! ID = Some (VStr i)) (coll w)))),
     sent (CmdDelete (by_id i)) None
       (filter (fun d : document => d !! ID ≠ Some (VStr i)) (coll w)) w).
Proof.
  intros Hc. unfold crud_item.delete_item, Motor.delete_many, bind.
  rewrite round_trip_calm by done. unfold server_delete. simpl.
  fold (by_id i). by rewrite filter_by_id, filter_not_by_id.
Qed.

(** C3. Delete: every document carrying the id is removed and no
    other, [n] of them; the response is 404 exactly when no document
    was deleted and 204 exactly when some was; after a 204 a GET of the
    id answers 404. *)
Theorem delete_item_404_or_204 (item_id : string) (w : world) :
  calm 2 w →
  let deleted := app (DELETE_item item_id) w in
  let n := length (filter
             (fun d : document => d !! ID = Some (VStr item_id)) (coll w)) in
  coll deleted.2 =
    filter (fun d : document => d !! ID ≠ Some (VStr item_id)) (coll w) ∧
  length (coll w) = (n + length (coll deleted.2))%nat ∧
  (deleted.1 = Ok {| status_code := 404; body := Empty |} ↔ n = 0%nat) ∧
  (deleted.1 = Ok {| status_code := 204; body := Empty |} ↔ n ≠ 0%nat) ∧
  (deleted.1 = Ok {| status_code := 204; body := Empty |} →
     (app (GET_item item_id) deleted.2).1 =
       Ok {| status_code := 404; body := Empty |}).
Proof.
  intros Hc deleted n.
  assert (calm 1 w) as Hc1 by (eapply calm_le; [|exact Hc]; lia).
  assert (deleted =
    (Ok (Response_ (if decide (Z.of_nat n = 0) then 404 else 204)),
     sent (CmdDelete (by_id item_id)) None
       (filter (fun d : document => d !! ID ≠ Some (VStr item_id)) (coll w))
       w)) as ->.
  { unfold deleted, app, route, endpoints.delete_item, bind.
    rewrite delete_item_calm by done. fold n.
    by destruct (decide (Z.of_nat n = 0)). }
  simpl fst. simpl snd. split_and!.
  - done.
  - simpl coll. unfold n. rewrite <- length_app.
    symmetry. apply Permutation_length, filter_app_complement.
  - destruct (decide (Z.of_nat n = 0)); split; try done; lia.
  - destruct (decide (Z.of_nat n = 0)); split; try done; lia.
  - intros _. unfold app, route, endpoints.get_item, bind.
    rewrite read_item_missing; [done| |].
    + by apply calm_S.
    + apply unknown_id_filter.
Qed.
End Delete_facts.

(** *** Listing *)

Lemma matches_empty (d : document) : matches ∅ d.
Proof. apply map_Forall_empty. Qed.

Lemma filter_all (docs : list document) : filter (matches ∅) docs = docs.
Proof.
  induction docs as [|d docs IH]; [done|].
  rewrite filter_cons_True by apply matches_empty. by rewrite IH.
Qed.

Section List_facts.
Context `{!Builtins}.

Lemma for_each_items (its : list Item) w :
  for_each (fun result : document =>
              v <- subscript result ID ;; lift (Item_call v result))
    (doc_of_item <$> its) w = (Ok its, w).
Proof.
  induction its as [|it its IH]; [done|].
  rewrite fmap_cons. cbn [for_each].
  erewrite bind_Ok; [erewrite bind_Ok; [reflexivity|exact IH]|].
  erewrite bind_Ok.
  - unfold lift. by rewrite Item_call_doc.
  - unfold subscript. by rewrite doc_of_item_ID.
Qed.

Lemma get_all_items_calm skip limit (its : list Item) w :
  calm 1 w → 0 ≤ skip < 2 ^ 63 → 0 ≤ limit →
  coll w = doc_of_item <$> its →
  crud_item.get_all_items skip limit w =
    (Ok (take (Z.to_nat limit) (drop (Z.to_nat skip) its)),
     sent (CmdFind ∅ skip limit) None (coll w) w).
Proof.
  intros Hc Hs Hl E. unfold crud_item.get_all_items, bind.
  unfold Motor.skip. rewrite decide_False by lia. unfold ret at 1.
  unfold Motor.to_list. rewrite decide_False by lia.
  cbn [Motor.c_filter Motor.c_skip Motor.find].
  rewrite bson_int_small by lia.
  rewrite encoded_round_trip_calm by done. unfold server_find. simpl.
  rewrite filter_all, E, <- fmap_drop, <- fmap_take.
  by rewrite for_each_items.
Qed.

Lemma get_all_items_overflow skip limit w :
  calm 1 w → 2 ^ 63 ≤ skip → 0 ≤ limit →
  crud_item.get_all_items skip limit w = (Raise OverflowError, w).
Proof.
  intros Hc Hs Hl. unfold crud_item.get_all_items, bind.
  unfold Motor.skip. rewrite decide_False by lia. unfold ret at 1.
  unfold Motor.to_list. rewrite decide_False by lia.
  cbn [Motor.c_filter Motor.c_skip Motor.find].
  rewrite bson_int_big by lia.
  by rewrite encoded_round_trip_refused by done.
Qed.

(** C5, as the code has it. Get all: for a non-negative skip below
    2^63 and a non-negative limit (absent parameters count as 0 and
    100) over a collection of stored items, when the prices of the
    items of the page are finite numbers, the response is 200 with the
    items left after skipping the first [skip] in collection order and
    keeping at most [limit]; on the empty collection with the defaults
    the list is empty. *)
Theorem get_all_items_page (its : list Item) (w : world) :
  calm 1 w →
  coll w = doc_of_item <$> its →
  (∀ qskip qlimit skip limit,
     get_all_items_params qskip qlimit = Some (skip, limit) →
     0 ≤ skip < 2 ^ 63 → 0 ≤ limit →
     Forall (fun it : Item => finite_float (price it))
       (take (Z.to_nat limit) (drop (Z.to_nat skip) its)) →
     (app (GET_items qskip qlimit) w).1 =
       Ok {| status_code := 200;
             body := JItems (take (Z.to_nat limit)
                               (drop (Z.to_nat skip) its)) |}) ∧
  get_all_items_params None None = Some (0, 100) ∧
  (its = [] →
     (app (GET_items None None) w).1 =
       Ok {| status_code := 200; body := JItems [] |}).
Proof.
  intros Hc E.
  assert (∀ qskip qlimit skip limit,
     get_all_items_params qskip qlimit = Some (skip, limit) →
     0 ≤ skip < 2 ^ 63 → 0 ≤ limit →
     Forall (fun it : Item => finite_float (price it))
       (take (Z.to_nat limit) (drop (Z.to_nat skip) its)) →
     (app (GET_items qskip qlimit) w).1 =
       Ok {| status_code := 200;
             body := JItems (take (Z.to_nat limit)
                               (drop (Z.to_nat skip) its)) |}) as Hpage.
  { intros qskip qlimit skip limit Hp Hs Hl Hfin. unfold app. rewrite Hp.
    rewrite route_run. unfold endpoints.get_all_items, bind.
    rewrite (get_all_items_calm skip limit its w) by done.
    cbn -[render_items take drop]. by rewrite render_items_finite. }
  split_and!; [done|done|].
  intros ->. rewrite (Hpage None None 0 100); [done|done|lia|lia|].
  simpl. constructor.
Qed.
End List_facts.

(** *** Updating *)

Lemma vars_union_doc (item : ItemBase) (it : Item) :
  vars item ∪ doc_of_item it = doc_of_item (mkItem item (id it)).
Proof. by destruct item, it as [[] ?]. Qed.

Lemma doc_of_item_inj (a b : Item) : doc_of_item a = doc_of_item b → a = b.
Proof.
  intros E.
  pose proof (f_equal (fun d : document => d !! "name") E) as Hn.
  pose proof (f_equal (fun d : document => d !! "description") E) as Hd.
  pose proof (f_equal (fun d : document => d !! "price") E) as Hp.
  pose proof (f_equal (fun d : document => d !! ID) E) as Hi.
  destruct a as [[] ?], b as [[] ?].
  vm_compute in Hn, Hd, Hp, Hi. congruence.
Qed.

Lemma server_update_item i (item : ItemBase) docs n it :
  list_find (matches (by_id i)) docs = Some (n, doc_of_item it) →
  server_update (by_id i) (Set_ (vars item)) docs =
    if decide (Item_base it = item)
    then (Ok {| matched_count := 1; modified_count := 0 |}, docs)
    else (Ok {| matched_count := 1; modified_count := 1 |},
          <[n := doc_of_item (mkItem item (id it))]> docs).
Proof.
  intros E. unfold server_update. rewrite E.
  rewrite decide_False.
  2:{ rewrite vars_lookup_ID. by intros [[? ?] _]. }
  rewrite vars_union_doc.
  destruct (decide (Item_base it = item)) as [<-|Hne].
  - rewrite decide_True; [done|]. by destruct it.
  - rewrite decide_False; [done|].
    intros Heq%doc_of_item_inj. apply Hne. by rewrite <- Heq.
Qed.

Lemma server_update_unknown i upd docs :
  unknown_id i docs →
  server_update (by_id i) upd docs =
    (Ok {| matched_count := 0; modified_count := 0 |}, docs).
Proof.
  intros Hun. unfold server_update. by rewrite find_by_id_unknown.
Qed.

Section Update_facts.
Context `{!Builtins}.

Lemma update_item_calm i (item : ItemBase) w :
  calm 1 w →
  let reply := server_update (by_id i) (Set_ (vars item)) (coll w) in
  crud_item.update_item i item w =
    (match reply.1 with
     | Ok report =>
         if decide (modified_count report = 0) then Ok None
         else Ok (Some (mkItem item i))
     | Raise e => Raise e
     end,
     sent (CmdUpdate (by_id i) (Set_ (vars item))) (outcome reply.1)
       reply.2 w).
Proof.
  intros Hc reply. unfold crud_item.update_item, Motor.update_one, bind.
  rewrite round_trip_calm by done. fold (by_id i). fold reply.
  destruct reply.1 as [report|e]; [|done].
  destruct (decide (modified_count report = 0)); [done|].
  unfold lift. by rewrite Item_call_vars.
Qed.

Lemma put_unknown (item_id : string) (item : ItemBase) w :
  calm 1 w → unknown_id item_id (coll w) →
  app (PUT_item item_id item) w =
    (Ok (Response_ 404),
     sent (CmdFindOne (by_id item_id)) None (coll w) w).
Proof.
  intros Hc Hun. unfold app, route, endpoints.update_item, bind.
  by rewrite read_item_missing.
Qed.

(** C10. Update of an id that no stored document carries: the answer
    is 404 and the only round trip made is the lookup; no write is sent
    and the collection is as before. *)
Theorem update_unknown_no_write (item_id : string) (item : ItemBase)
    (w : world) :
  calm 1 w →
  unknown_id item_id (coll w) →
  let updated := app (PUT_item item_id item) w in
  updated.1 = Ok {| status_code := 404; body := Empty |} ∧
  since w updated.2 = [(CmdFindOne (by_id item_id), None)] ∧
  coll updated.2 = coll w.
Proof.
  intros Hc Hun updated. unfold updated.
  rewrite put_unknown by done.
  split_and!; [done| |done].
  unfold since. simpl. by rewrite drop_app_length.
Qed.

(** C2, as the code has it. Update: 404 when no document carries the
    id; when the item is stored, the store's report on the write
    decides: a modified count of zero (which the store reports exactly
    when the stored fields already equal the supplied ones) gives 304;
    any other, when the price of the body is a finite number, gives 200
    with the updated item. *)
Theorem update_item_responses (item_id : string) (item : ItemBase)
    (w : world) :
  calm 2 w →
  unique_ids (coll w) →
  let updated := app (PUT_item item_id item) w in
  (unknown_id item_id (coll w) →
     updated.1 = Ok {| status_code := 404; body := Empty |}) ∧
  (∀ it : Item, id it = item_id → doc_of_item it ∈ coll w →
     ∃ report,
       (server_update (by_id item_id) (Set_ (vars item)) (coll w)).1 =
         Ok report ∧
       (modified_count report = 0 ↔ Item_base it = item) ∧
       (modified_count report = 0 →
          updated.1 = Ok {| status_code := 304; body := Empty |}) ∧
       (modified_count report ≠ 0 → finite_float (price item) →
          updated.1 =
            Ok {| status_code := 200;
                  body := JItem (mkItem item item_id) |})).
Proof.
  intros Hc Hu updated.
  assert (calm 1 w) as Hc1 by (eapply calm_le; [|exact Hc]; lia).
  split.
  { intros Hun. unfold updated. by rewrite put_unknown. }
  intros it <- Hin.
  destruct (find_by_id_unique (id it) (coll w) (doc_of_item it))
    as [n E]; [done|done|apply doc_of_item_ID|].
  assert (updated.1 =
    match (server_update (by_id (id it)) (Set_ (vars item)) (coll w)).1 with
    | Ok report =>
        if decide (modified_count report = 0)
        then Ok (Response_ 304)
        else match render_item (mkItem item (id it)) with
             | Ok b => Ok {| status_code := 200; body := b |}
             | Raise e => Raise e
             end
    | Raise e => Raise e
    end) as ->.
  { unfold updated, app. rewrite route_run.
    unfold endpoints.update_item, bind.
    rewrite (read_item_found _ _ _ _ Hc1 E).
    rewrite update_item_calm by by apply calm_S.
    simpl coll.
    destruct (server_update _ _ _).1 as [report|e]; [|done].
    by destruct (decide (modified_count report = 0)). }
  rewrite (server_update_item _ _ _ _ _ E).
  destruct (decide (Item_base it = item)) as [Heq|Hne]; simpl.
  - eexists. split; [done|]. simpl. split_and!; done.
  - eexists. split; [done|]. simpl. split_and!; try done.
    intros _ Hfin. by rewrite render_item_finite.
Qed.
End Update_facts.

(** *** Reading a successful run backwards *)

Lemma bind_inv_Ok {A B} (m : M A) (k : A → M B) w b w' :
  bind m k w = (Ok b, w') →
  ∃ a w1, m w = (Ok a, w1) ∧ k a w1 = (Ok b, w').
Proof.
  unfold bind. destruct (m w) as [[a|e] w1]; [eauto|done].
Qed.

Lemma round_trip_inv_Ok {A} c
    (server : list document → result A * list document) w a w' :
  round_trip c server w = (Ok a, w') →
  (server (coll w)).1 = Ok a ∧ w' = sent c None (server (coll w)).2 w.
Proof.
  unfold round_trip. destruct (head (faults w)) as [[e|]|]; [done|..].
  - intros [= E <-]. by rewrite E.
  - intros [= E <-]. by rewrite E.
Qed.

Section Update_body.
Context `{!Builtins}.

Lemma read_item_inv_Ok i w o w' :
  crud_item.read_item i w = (Ok o, w') →
  w' = sent (CmdFindOne (by_id i)) None (coll w) w.
Proof.
  unfold crud_item.read_item.
  intros (found & w1 & Hfind & Hrest)%bind_inv_Ok.
  apply round_trip_inv_Ok in Hfind as [_ ->]. simpl in Hrest.
  destruct found as [d|]; [|by injection Hrest as _ <-].
  apply bind_inv_Ok in Hrest as (v & w2 & Hsub & Hrest).
  apply bind_inv_Ok in Hrest as (it & w3 & Hcall & Hrest).
  unfold subscript in Hsub. destruct (d !! ID); [|done].
  injection Hsub as _ <-. unfold lift in Hcall.
  injection Hcall as _ <-. by injection Hrest as _ <-.
Qed.

Lemma update_item_inv_Ok i (item : ItemBase) w o w' :
  crud_item.update_item i item w = (Ok o, w') →
  (o = None ∨ o = Some (mkItem item i)) ∧
  w' = sent (CmdUpdate (by_id i) (Set_ (vars item))) None
         (server_update (by_id i) (Set_ (vars item)) (coll w)).2 w.
Proof.
  unfold crud_item.update_item.
  intros (report & w1 & Hupd & Hrest)%bind_inv_Ok.
  apply round_trip_inv_Ok in Hupd as [_ ->].
  destruct (decide (modified_count report = 0)).
  - injection Hrest as <- <-. auto.
  - apply bind_inv_Ok in Hrest as (it & w2 & Hcall & Hrest).
    unfold lift in Hcall. rewrite Item_call_vars in Hcall.
    injection Hcall as <- <-. injection Hrest as <- <-. auto.
Qed.

(** C9. Update answering 200: the body is the item made of the id of
    the path and the fields of the request body, and the write is the
    last round trip of the request: after the lookup and the write
    nothing is read back. *)
Theorem update_200_body (item_id : string) (item : ItemBase)
    (w w' : world) (resp : Response) :
  app (PUT_item item_id item) w = (Ok resp, w') →
  status_code resp = 200 →
  body resp = JItem (mkItem item item_id) ∧
  since w w' =
    [(CmdFindOne (by_id item_id), None);
     (CmdUpdate (by_id item_id) (Set_ (vars item)), None)].
Proof.
  unfold app. rewrite route_run. intros Hrun Hst.
  destruct (endpoints.update_item item_id item w) as [r w1] eqn:Hop.
  simpl in Hrun. injection Hrun as Hres <-.
  destruct r as [r|e]; [|done].
  unfold endpoints.update_item in Hop.
  apply bind_inv_Ok in Hop as (db_item & wa & Hread & Hop).
  apply read_item_inv_Ok in Hread as ->.
  destruct db_item as [db_item|].
  2:{ injection Hop as <- <-. by injection Hres as <-. }
  apply bind_inv_Ok in Hop as (o & wb & Hupd & Hop).
  apply update_item_inv_Ok in Hupd as [Ho ->].
  destruct Ho as [-> | ->].
  { injection Hop as <- <-. by injection Hres as <-. }
  injection Hop as <- <-.
  destruct (render_item (mkItem item item_id)) as [b|e] eqn:Hb; [|done].
  apply render_item_Ok in Hb as [_ ->]. injection Hres as <-.
  split; [done|].
  unfold since. simpl. by rewrite <- app_assoc, drop_app_length.
Qed.
End Update_body.


(** *** Frames: what a request may do to the collection *)

Global Instance same_ids_preorder : PreOrder same_ids.
Proof.
  split.
  - intros a. reflexivity.
  - unfold same_ids. intros a b c Hab Hbc. congruence.
Qed.

Global Instance fewer_ids_preorder : PreOrder fewer_ids.
Proof.
  split.
  - intros a. unfold fewer_ids. reflexivity.
  - unfold fewer_ids. intros a b c Hab Hbc. by transitivity (ids b).
Qed.

Global Instance more_ids_preorder : PreOrder more_ids.
Proof.
  split.
  - intros a. unfold more_ids. reflexivity.
  - unfold more_ids. intros a b c Hab Hbc. by transitivity (ids b).
Qed.

Global Instance stays_stored_preorder : PreOrder stays_stored.
Proof.
  split.
  - intros a Ha. exact Ha.
  - unfold stays_stored. intros a b c Hab Hbc Ha. auto.
Qed.

Section Frames.
Context (P : command → Prop) (S : relation (list document)).
Context `{!PreOrder S}.

Lemma frame_same w w' :
  coll w' = coll w → wire w' = wire w → frame P S w w'.
Proof.
  intros Ec Ew. split; [by rewrite Ec|].
  exists []. by rewrite app_nil_r.
Qed.

Lemma frame_trans w1 w2 w3 :
  frame P S w1 w2 → frame P S w2 w3 → frame P S w1 w3.
Proof.
  intros [HS1 (n1 & E1 & HP1)] [HS2 (n2 & E2 & HP2)]. split.
  - by transitivity (coll w2).
  - exists (n1 ++ n2). rewrite E2, E1, app_assoc. split; [done|].
    by apply Forall_app.
Qed.

Lemma frame_since w w' :
  frame P S w w' →
  S (coll w) (coll w') ∧ Forall (fun r : round => P r.1) (since w w').
Proof.
  intros [HS (new & E & HP)]. split; [done|].
  unfold since. by rewrite E, drop_app_length.
Qed.

Lemma keeps_ret {A} (a : A) : keeps (frame P S) (ret a).
Proof. intros w. by apply frame_same. Qed.

Lemma keeps_raise {A} e : keeps (frame P S) (@raise A e).
Proof. intros w. by apply frame_same. Qed.

Lemma keeps_lift {A} (r : result A) : keeps (frame P S) (lift r).
Proof. intros w. by apply frame_same. Qed.

Lemma keeps_bind {A B} (m : M A) (k : A → M B) :
  keeps (frame P S) m → (∀ a, keeps (frame P S) (k a)) →
  keeps (frame P S) (bind m k).
Proof.
  intros Hm Hk w. specialize (Hm w). unfold bind.
  destruct (m w) as [[a|e] w1]; [|done].
  eapply frame_trans; [exact Hm|apply Hk].
Qed.

Lemma keeps_round_trip {A} c
    (server : list document → result A * list document) :
  P c → (∀ docs, S docs (server docs).2) →
  keeps (frame P S) (round_trip c server).
Proof.
  intros Hc Hs w. unfold round_trip.
  destruct (head (faults w)) as [[e|]|]; simpl.
  - split; [done|]. eexists. split; [done|]. by apply Forall_singleton.
  - split; [apply Hs|]. eexists. split; [done|]. by apply Forall_singleton.
  - split; [apply Hs|]. eexists. split; [done|]. by apply Forall_singleton.
Qed.

Lemma keeps_subscript d k : keeps (frame P S) (subscript d k).
Proof.
  unfold subscript. destruct (d !! k); [apply keeps_ret|apply keeps_raise].
Qed.

Lemma keeps_for_each {A B} (f : A → M B) l :
  (∀ a, keeps (frame P S) (f a)) → keeps (frame P S) (for_each f l).
Proof.
  intros Hf. induction l as [|x l IH]; simpl; [apply keeps_ret|].
  apply keeps_bind; [apply Hf|]. intros y.
  apply keeps_bind; [apply IH|]. intros ys. apply keeps_ret.
Qed.

Lemma keeps_uuid4 : keeps (frame P S) uuid.uuid4.
Proof. intros w. by apply frame_same. Qed.

Lemma keeps_encoded_round_trip {A} c refusal
    (server : list document → result A * list document) :
  P c → (∀ docs, S docs (server docs).2) →
  keeps (frame P S) (encoded_round_trip c refusal server).
Proof.
  intros Hc Hs w. unfold encoded_round_trip.
  destruct (head (faults w)) as [[e|]|]; [|destruct refusal..]; simpl.
  - split; [done|]. eexists. split; [done|]. by apply Forall_singleton.
  - by apply frame_same.
  - split; [apply Hs|]. eexists. split; [done|]. by apply Forall_singleton.
  - by apply frame_same.
  - split; [apply Hs|]. eexists. split; [done|]. by apply Forall_singleton.
Qed.

Lemma keeps_route {A} status (render : A → result content) op :
  keeps (frame P S) op → keeps (frame P S) (route status render op).
Proof.
  intros Hop. unfold route. apply keeps_bind; [done|].
  intros [a|resp]; [|apply keeps_ret].
  apply keeps_bind; [apply keeps_lift|]. intros b. apply keeps_ret.
Qed.
End Frames.

Lemma sets_fields_only_vars flt (item : ItemBase) :
  sets_fields_only (CmdUpdate flt (Set_ (vars item))).
Proof.
  intros flt' upd [= _ <-]. exists (vars item). split; [done|apply dom_vars].
Qed.

Lemma sets_fields_only_insert doc : sets_fields_only (CmdInsert doc).
Proof. by intros flt upd. Qed.

Lemma sets_fields_only_find flt skip length :
  sets_fields_only (CmdFind flt skip length).
Proof. by intros flt' upd. Qed.

Lemma sets_fields_only_find_one flt : sets_fields_only (CmdFindOne flt).
Proof. by intros flt' upd. Qed.

Lemma sets_fields_only_delete flt : sets_fields_only (CmdDelete flt).
Proof. by intros flt' upd. Qed.

Lemma insert_one_item it w :
  Motor.insert_one (doc_of_item it) w =
  round_trip (CmdInsert (doc_of_item it))
    (server_insert (VStr (id it)) (doc_of_item it)) w.
Proof.
  unfold Motor.insert_one, Motor.ensure_id, bind.
  by rewrite doc_of_item_ID.
Qed.

(** Each request stays within any preorder on collections that the
    server-side effect of its one write stays within. *)
Section Request_frames.
Context `{!Builtins}.
Context (S : relation (list document)) `{!PreOrder S}.

Lemma keeps_read_item i :
  keeps (frame sets_fields_only S) (crud_item.read_item i).
Proof.
  unfold crud_item.read_item. apply keeps_bind; [done|..].
  { apply keeps_round_trip; [done|apply sets_fields_only_find_one|].
    by intros docs. }
  intros [d|]; [|by apply keeps_ret].
  apply keeps_bind; [done|by apply keeps_subscript|]. intros v.
  apply keeps_bind; [done|by apply keeps_lift|]. intros it.
  by apply keeps_ret.
Qed.

Lemma keeps_get_item i :
  keeps (frame sets_fields_only S)
    (route HTTP_200_OK render_item (endpoints.get_item i)).
Proof.
  apply keeps_route; [done|]. unfold endpoints.get_item.
  apply keeps_bind; [done|apply keeps_read_item|].
  intros [it|]; by apply keeps_ret.
Qed.

Lemma keeps_get_all_items skip limit :
  keeps (frame sets_fields_only S)
    (route HTTP_200_OK render_items (endpoints.get_all_items skip limit)).
Proof.
  apply keeps_route; [done|]. unfold endpoints.get_all_items.
  apply keeps_bind; [done| |intros its; by apply keeps_ret].
  unfold crud_item.get_all_items. apply keeps_bind; [done|..].
  { unfold Motor.skip. case_decide; [by apply keeps_raise|by apply keeps_ret]. }
  intros cursor. apply keeps_bind; [done|..].
  { unfold Motor.to_list. case_decide; [by apply keeps_raise|].
    apply keeps_encoded_round_trip; [done|apply sets_fields_only_find|].
    by intros docs. }
  intros results. apply keeps_for_each; [done|]. intros d.
  apply keeps_bind; [done|by apply keeps_subscript|]. intros v.
  by apply keeps_lift.
Qed.

Lemma keeps_post_item (item : ItemBase) :
  (∀ it docs, Item_base it = item →
     S docs (server_insert (VStr (id it)) (doc_of_item it) docs).2) →
  keeps (frame sets_fields_only S)
    (route HTTP_201_CREATED render_item (endpoints.post_item item)).
Proof.
  intros Hins. apply keeps_route; [done|]. unfold endpoints.post_item.
  apply keeps_bind; [done| |intros it; by apply keeps_ret].
  unfold crud_item.create_item.
  apply keeps_bind; [done|by apply keeps_uuid4|]. intros u.
  apply keeps_bind; [done| |intros r; by apply keeps_lift].
  intros w. change (<[ID:=VStr (uuid.str u)]> (vars item))
    with (doc_of_item (mkItem item (uuid.str u))).
  rewrite insert_one_item.
  apply keeps_round_trip; [done|apply sets_fields_only_insert|].
  intros docs. by apply Hins.
Qed.

Lemma keeps_put_item i (item : ItemBase) :
  (∀ docs, S docs (server_update (by_id i) (Set_ (vars item)) docs).2) →
  keeps (frame sets_fields_only S)
    (route HTTP_200_OK render_item (endpoints.update_item i item)).
Proof.
  intros Hupd. apply keeps_route; [done|]. unfold endpoints.update_item.
  apply keeps_bind; [done|apply keeps_read_item|].
  intros [it|]; [|by apply keeps_ret].
  apply keeps_bind; [done| |intros [it'|]; by apply keeps_ret].
  unfold crud_item.update_item. apply keeps_bind; [done|..].
  { by apply keeps_round_trip; [|apply sets_fields_only_vars|]. }
  intros report. case_decide; [by apply keeps_ret|].
  apply keeps_bind; [done|by apply keeps_lift|]. intros it'.
  by apply keeps_ret.
Qed.

Lemma keeps_delete_item i :
  (∀ docs, S docs (server_delete (by_id i) docs).2) →
  keeps (frame sets_fields_only S)
    (route HTTP_200_OK render_none (endpoints.delete_item i)).
Proof.
  intros Hdel. apply keeps_route; [done|]. unfold endpoints.delete_item.
  apply keeps_bind; [done|..].
  { unfold crud_item.delete_item. apply keeps_bind; [done|..].
    - by apply keeps_round_trip; [|apply sets_fields_only_delete|].
    - intros r. by apply keeps_ret. }
  intros n. case_decide; by apply keeps_ret.
Qed.
End Request_frames.

(** *** What the server does to the identifiers *)

Lemma same_ids_server_update flt upd docs :
  same_ids docs (server_update flt upd docs).2.
Proof.
  unfold same_ids, server_update.
  destruct (list_find (matches flt) docs) as [[n d]|] eqn:E; [|done].
  destruct upd as [fields].
  destruct (decide (is_Some (fields !! ID) ∧ fields !! ID ≠ d !! ID))
    as [|Hsame]; [done|].
  destruct (decide (fields ∪ d = d)); [done|]. simpl.
  apply list_find_Some in E as (Hn & _ & _).
  unfold ids. rewrite list_fmap_insert. apply list_insert_id.
  rewrite list_lookup_fmap, Hn. simpl. f_equal.
  destruct (fields !! ID) as [v|] eqn:Ef.
  - destruct (decide (Some v = d !! ID)) as [<-|Hne].
    + symmetry. by apply lookup_union_Some_l.
    + destruct Hsame. split; [by eexists|done].
  - by rewrite lookup_union_r.
Qed.

Lemma fewer_ids_server_delete flt docs :
  fewer_ids docs (server_delete flt docs).2.
Proof.
  unfold fewer_ids, server_delete, ids. simpl.
  apply fmap_sublist, sublist_filter.
Qed.

Lemma more_ids_server_insert i doc docs :
  more_ids docs (server_insert i doc docs).2.
Proof.
  unfold more_ids, server_insert. case_decide; simpl; [done|].
  unfold ids. rewrite fmap_app. by apply prefix_app_r.
Qed.

Section Identifiers.
Context `{!Builtins}.

(** C6. The id of a stored item is never changed: an update leaves the
    identifier of every document where it was, and the only [$set]
    documents ever written have exactly the keys name, description and
    price; reads leave the identifiers alone, a delete only removes
    some, and a create only appends one after those present. *)
Theorem id_is_immutable (req : request) (w : world) :
  let w' := (app req w).2 in
  Forall (fun r : round => sets_fields_only r.1) (since w w') ∧
  match req with
  | PUT_item _ _ | GET_item _ | GET_items _ _ =>
      ids (coll w') = ids (coll w)
  | DELETE_item _ => ids (coll w') `sublist_of` ids (coll w)
  | POST_item _ => ids (coll w) `prefix_of` ids (coll w')
  end.
Proof.
  intros w'. unfold w'. destruct req as [i|qs ql|item|i item|i]; simpl.
  - pose proof (keeps_get_item same_ids i w) as Hk.
    by apply frame_since in Hk as [? ?].
  - destruct (get_all_items_params qs ql) as [[s l]|].
    + pose proof (keeps_get_all_items same_ids s l w) as Hk.
      by apply frame_since in Hk as [? ?].
    + split; [|done]. unfold since. simpl. by rewrite drop_all.
  - assert (keeps (frame sets_fields_only more_ids)
              (route HTTP_201_CREATED render_item (endpoints.post_item item)))
      as Hk.
    { apply keeps_post_item; [apply _|]. intros it docs _.
      apply more_ids_server_insert. }
    specialize (Hk w). by apply frame_since in Hk as [? ?].
  - assert (keeps (frame sets_fields_only same_ids)
              (route HTTP_200_OK render_item (endpoints.update_item i item)))
      as Hk.
    { apply keeps_put_item; [apply _|]. intros docs.
      apply same_ids_server_update. }
    specialize (Hk w). by apply frame_since in Hk as [? ?].
  - assert (keeps (frame sets_fields_only fewer_ids)
              (route HTTP_200_OK render_none
                 (endpoints.delete_item i))) as Hk.
    { apply keeps_delete_item; [apply _|]. intros docs.
      apply fewer_ids_server_delete. }
    specialize (Hk w). by apply frame_since in Hk as [? ?].
Qed.
End Identifiers.

(** *** The collection holds items only, under distinct ids *)

Lemma well_stored_nil : well_stored [].
Proof. exists []. split; [done|constructor]. Qed.

Lemma ids_items (its : list Item) :
  ids (doc_of_item <$> its) = (fun it => Some (VStr (id it))) <$> its.
Proof.
  unfold ids. rewrite <- list_fmap_compose. apply list_fmap_ext.
  intros n it _. apply doc_of_item_ID.
Qed.

Lemma well_stored_unique_ids docs : well_stored docs → unique_ids docs.
Proof.
  intros (its & -> & Hnd). unfold unique_ids. rewrite ids_items.
  rewrite (list_fmap_compose id (fun i => Some (VStr i))).
  apply NoDup_fmap_2; [|done]. by intros a b [= ->].
Qed.

Lemma filter_items (Q : document → Prop) `{!∀ d, Decision (Q d)}
    (its : list Item) :
  filter Q (doc_of_item <$> its) =
  doc_of_item <$> filter (fun it => Q (doc_of_item it)) its.
Proof.
  induction its as [|it its IH]; [done|].
  rewrite fmap_cons, !filter_cons, IH. by case_decide.
Qed.

Lemma stays_stored_server_update i (item : ItemBase) docs :
  stays_stored docs (server_update (by_id i) (Set_ (vars item)) docs).2.
Proof.
  intros (its & -> & Hnd).
  destruct (list_find (matches (by_id i)) (doc_of_item <$> its))
    as [[n d]|] eqn:E.
  2:{ unfold server_update. rewrite E. by exists its. }
  pose proof E as (Hn & _ & _)%list_find_Some.
  apply list_lookup_fmap_Some in Hn as (it & -> & Hit).
  rewrite (server_update_item _ _ _ _ _ E).
  case_decide; [by exists its|]. simpl.
  exists (<[n := mkItem item (id it)]> its). split.
  - by rewrite list_fmap_insert.
  - rewrite list_fmap_insert. simpl. rewrite list_insert_id; [done|].
    by rewrite list_lookup_fmap, Hit.
Qed.

Lemma stays_stored_server_delete flt docs :
  stays_stored docs (server_delete flt docs).2.
Proof.
  intros (its & -> & Hnd). unfold server_delete. simpl.
  rewrite filter_items. eexists. split; [done|].
  eapply sublist_NoDup; [exact Hnd|]. apply fmap_sublist, sublist_filter.
Qed.

Lemma stays_stored_server_insert it docs :
  stays_stored docs (server_insert (VStr (id it)) (doc_of_item it) docs).2.
Proof.
  intros (its & -> & Hnd). unfold server_insert.
  case_decide as Hex; [by exists its|]. simpl.
  exists (its ++ [it]). rewrite !fmap_app. split; [done|].
  apply NoDup_app. split_and!; [done| |apply NoDup_singleton].
  intros i [it' [-> Hin]]%list_elem_of_fmap Hi%list_elem_of_singleton.
  apply Hex, Exists_exists. exists (doc_of_item it'). split.
  - apply list_elem_of_fmap. eauto.
  - rewrite doc_of_item_ID. by rewrite Hi.
Qed.

Section Invariant.
Context `{!Builtins}.

Lemma app_stays_stored (req : request) :
  keeps (frame sets_fields_only stays_stored) (app req).
Proof.
  destruct req as [i|qs ql|item|i item|i]; simpl.
  - apply keeps_get_item; apply _.
  - destruct (get_all_items_params qs ql) as [[s l]|].
    + apply keeps_get_all_items; apply _.
    + apply keeps_ret; apply _.
  - apply keeps_post_item; [apply _|]. intros it docs _.
    apply stays_stored_server_insert.
  - apply keeps_put_item; [apply _|]. intros docs.
    apply stays_stored_server_update.
  - apply keeps_delete_item; [apply _|]. intros docs.
    apply stays_stored_server_delete.
Qed.

(** Whatever the request and whatever becomes of it, a collection of
    items under distinct ids remains one. *)
Theorem well_stored_preserved (req : request) (w : world) :
  well_stored (coll w) → well_stored (coll (app req w).2).
Proof. by destruct (app_stays_stored req w) as [Hs _]. Qed.

(** Every world the service gets to from an empty collection holds
    items only, under distinct ids. *)
Theorem reachable_well_stored (w : world) :
  reachable w → well_stored (coll w) ∧ unique_ids (coll w).
Proof.
  intros Hr.
  assert (well_stored (coll w)) as Hw.
  { induction Hr as [w E|w req _ IH].
    - rewrite E. apply well_stored_nil.
    - by destruct (app_stays_stored req w) as [Hs _]; apply Hs. }
  split; [done|by apply well_stored_unique_ids].
Qed.
End Invariant.

(** *** Failed round trips *)

Lemma propagates_quiet {A} (m : M A) :
  (∀ w, wire (m w).2 = wire w) → propagates m.
Proof.
  intros Hq w. exists []. rewrite app_nil_r. split; [apply Hq|].
  intros c e Hin. by apply elem_of_nil in Hin.
Qed.

Lemma propagates_ret {A} (a : A) : propagates (ret a).
Proof. by apply propagates_quiet. Qed.

Lemma propagates_raise {A} e : propagates (@raise A e).
Proof. by apply propagates_quiet. Qed.

Lemma propagates_lift {A} (r : result A) : propagates (lift r).
Proof. by apply propagates_quiet. Qed.

Lemma propagates_bind {A B} (m : M A) (k : A → M B) :
  propagates m → (∀ a, propagates (k a)) → propagates (bind m k).
Proof.
  intros Hm Hk w. destruct (Hm w) as (n1 & E1 & H1). unfold bind.
  destruct (m w) as [[a|e0] w1]; simpl in *.
  - destruct (Hk a w1) as (n2 & E2 & H2). exists (n1 ++ n2).
    split; [by rewrite E2, E1, app_assoc|].
    intros c e [Hin|Hin]%elem_of_app.
    + by destruct (H1 c e Hin).
    + destruct (H2 c e Hin) as [Hr Hl]. split; [done|].
      by rewrite last_app, Hl.
  - exists n1. split; [exact E1|].
    intros c e Hin. destruct (H1 c e Hin) as [[= ->] Hl]. by split.
Qed.

Lemma outcome_Some {A} (r : result A) e : outcome r = Some e → r = Raise e.
Proof. destruct r; simpl; congruence. Qed.

Lemma propagates_round_trip {A} c
    (server : list document → result A * list document) :
  propagates (round_trip c server).
Proof.
  intros w. unfold round_trip.
  destruct (head (faults w)) as [[e|]|]; simpl.
  - eexists. split; [done|].
    intros c' e' Hin%list_elem_of_singleton. injection Hin as -> ->.
    by split.
  - eexists. split; [done|].
    intros c' e' Hin%list_elem_of_singleton. injection Hin as -> He.
    split; [by apply outcome_Some|]. by rewrite He.
  - eexists. split; [done|].
    intros c' e' Hin%list_elem_of_singleton. injection Hin as -> He.
    split; [by apply outcome_Some|]. by rewrite He.
Qed.

Lemma propagates_subscript d k : propagates (subscript d k).
Proof.
  unfold subscript. destruct (d !! k);
    [apply propagates_ret|apply propagates_raise].
Qed.

Lemma propagates_for_each {A B} (f : A → M B) l :
  (∀ a, propagates (f a)) → propagates (for_each f l).
Proof.
  intros Hf. induction l as [|x l IH]; simpl; [apply propagates_ret|].
  apply propagates_bind; [apply Hf|]. intros y.
  apply propagates_bind; [apply IH|]. intros ys. apply propagates_ret.
Qed.

Lemma propagates_encoded_round_trip {A} c refusal
    (server : list document → result A * list document) :
  propagates (encoded_round_trip c refusal server).
Proof.
  intros w. unfold encoded_round_trip.
  destruct (head (faults w)) as [[e|]|]; [|destruct refusal..]; simpl.
  - eexists. split; [done|].
    intros c' e' Hin%list_elem_of_singleton. injection Hin as -> ->.
    by split.
  - exists []. rewrite app_nil_r. split; [done|].
    intros c' e' Hin. by apply elem_of_nil in Hin.
  - eexists. split; [done|].
    intros c' e' Hin%list_elem_of_singleton. injection Hin as -> He.
    split; [by apply outcome_Some|]. by rewrite He.
  - exists []. rewrite app_nil_r. split; [done|].
    intros c' e' Hin. by apply elem_of_nil in Hin.
  - eexists. split; [done|].
    intros c' e' Hin%list_elem_of_singleton. injection Hin as -> He.
    split; [by apply outcome_Some|]. by rewrite He.
Qed.

Lemma propagates_route {A} status (render : A → result content) op :
  propagates op → propagates (route status render op).
Proof.
  intros Hop. unfold route. apply propagates_bind; [done|].
  intros [a|resp]; [|apply propagates_ret].
  apply propagates_bind; [apply propagates_lift|]. intros b.
  apply propagates_ret.
Qed.

Section Propagation.
Context `{!Builtins}.

Lemma propagates_read_item i : propagates (crud_item.read_item i).
Proof.
  unfold crud_item.read_item.
  apply propagates_bind; [apply propagates_round_trip|].
  intros [d|]; [|apply propagates_ret].
  apply propagates_bind; [apply propagates_subscript|]. intros v.
  apply propagates_bind; [apply propagates_lift|]. intros it.
  apply propagates_ret.
Qed.

Lemma propagates_get_all_items skip limit :
  propagates (crud_item.get_all_items skip limit).
Proof.
  unfold crud_item.get_all_items. apply propagates_bind.
  { unfold Motor.skip.
    case_decide; [apply propagates_raise|apply propagates_ret]. }
  intros cursor. apply propagates_bind.
  { unfold Motor.to_list.
    case_decide; [apply propagates_raise|].
    apply propagates_encoded_round_trip. }
  intros results. apply propagates_for_each. intros d.
  apply propagates_bind; [apply propagates_subscript|]. intros v.
  apply propagates_lift.
Qed.

Lemma propagates_create_item (item : ItemBase) :
  propagates (crud_item.create_item item).
Proof.
  unfold crud_item.create_item.
  apply propagates_bind; [by apply propagates_quiet|]. intros u.
  apply propagates_bind.
  { unfold Motor.insert_one. apply propagates_bind.
    - unfold Motor.ensure_id.
      destruct (_ !! ID); [apply propagates_ret|by apply propagates_quiet].
    - intros p. apply propagates_round_trip. }
  intros r. apply propagates_lift.
Qed.

Lemma propagates_update_item i (item : ItemBase) :
  propagates (crud_item.update_item i item).
Proof.
  unfold crud_item.update_item.
  apply propagates_bind; [apply propagates_round_trip|].
  intros report. case_decide; [apply propagates_ret|].
  apply propagates_bind; [apply propagates_lift|]. intros it.
  apply propagates_ret.
Qed.

Lemma propagates_delete_item i : propagates (crud_item.delete_item i).
Proof.
  unfold crud_item.delete_item.
  apply propagates_bind; [apply propagates_round_trip|].
  intros r. apply propagates_ret.
Qed.

Lemma propagates_app req : propagates (app req).
Proof.
  destruct req as [i|qs ql|item|i item|i]; simpl.
  - apply propagates_route. unfold endpoints.get_item.
    apply propagates_bind; [apply propagates_read_item|].
    intros [it|]; apply propagates_ret.
  - destruct (get_all_items_params qs ql) as [[s l]|];
      [|apply propagates_ret].
    apply propagates_route. unfold endpoints.get_all_items.
    apply propagates_bind; [apply propagates_get_all_items|].
    intros its. apply propagates_ret.
  - apply propagates_route. unfold endpoints.post_item.
    apply propagates_bind; [apply propagates_create_item|].
    intros it. apply propagates_ret.
  - apply propagates_route. unfold endpoints.update_item.
    apply propagates_bind; [apply propagates_read_item|].
    intros [it|]; [|apply propagates_ret].
    apply propagates_bind; [apply propagates_update_item|].
    intros [it'|]; apply propagates_ret.
  - apply propagates_route. unfold endpoints.delete_item.
    apply propagates_bind; [apply propagates_delete_item|].
    intros n. case_decide; apply propagates_ret.
Qed.

(** C8. Database errors are neither caught nor retried: for every
    request, if a round trip made while serving it ends in an exception,
    then that exception is the outcome of the request (no response is
    produced) and that round trip is the last one made. *)
Theorem db_errors_propagate (req : request) (w : world) (c : command)
    (e : exn) :
  (c, Some e) ∈ since w (app req w).2 →
  (app req w).1 = Raise e ∧
  last (wire (app req w).2) = Some (c, Some e).
Proof.
  destruct (propagates_app req w) as (new & E & Hnew).
  unfold since. rewrite E, drop_app_length. intros Hin.
  destruct (Hnew c e Hin) as [Hr Hl]. split; [done|].
  by rewrite last_app, Hl.
Qed.
End Propagation.

(** *** The parameters of a listing *)

Section Listing_parameters.
Context `{!Builtins}.

Lemma get_all_items_negative skip limit w :
  skip < 0 ∨ limit < 0 →
  crud_item.get_all_items skip limit w = (Raise ValueError, w).
Proof.
  intros Hneg. unfold crud_item.get_all_items, bind, Motor.skip.
  destruct (decide (skip < 0)); [done|].
  unfold ret at 1. unfold Motor.to_list.
  rewrite decide_True by lia. done.
Qed.

(** C7, as the code has it. Every integer is taken for skip and for
    limit: nothing at the handler or in the repository asks for a
    non-negative value.  A negative skip or limit goes to the driver
    as it is, where the argument check raises ValueError before anything
    is sent, and the exception is the outcome; so a response is only
    produced for non-negative skip and limit. *)
Theorem get_all_items_any_integer (skip limit : Z) (w : world) :
  let req := GET_items (Some (QInt skip)) (Some (QInt limit)) in
  get_all_items_params (Some (QInt skip)) (Some (QInt limit)) =
    Some (skip, limit) ∧
  (skip < 0 ∨ limit < 0 → app req w = (Raise ValueError, w)) ∧
  (∀ resp, (app req w).1 = Ok resp → 0 ≤ skip ∧ 0 ≤ limit).
Proof.
  intros req.
  assert (skip < 0 ∨ limit < 0 → app req w = (Raise ValueError, w)) as Hneg.
  { intros Hn. unfold req, app. simpl.
    unfold route, endpoints.get_all_items, bind.
    by rewrite get_all_items_negative. }
  split_and!; [done|done|].
  intros resp Hok.
  destruct (decide (skip < 0 ∨ limit < 0)) as [Hn|Hn]; [|lia].
  rewrite (Hneg Hn) in Hok. done.
Qed.
End Listing_parameters.

(* ================================================================== *)
(** ** Further properties of the requests *)

(** *** Every run of a round trip *)

Lemma round_trip_cases {A} c
    (server : list document → result A * list document) w :
  (∃ e, head (faults w) = Some (Some e) ∧
        round_trip c server w =
          (Raise (PyMongoError e),
           sent c (Some (PyMongoError e)) (coll w) w)) ∨
  round_trip c server w =
    ((server (coll w)).1,
     sent c (outcome (server (coll w)).1) (server (coll w)).2 w).
Proof.
  unfold round_trip. destruct (head (faults w)) as [[e|]|]; eauto.
Qed.

Lemma encoded_round_trip_cases {A} c refusal
    (server : list document → result A * list document) w :
  (∃ e, head (faults w) = Some (Some e) ∧
        encoded_round_trip c refusal server w =
          (Raise (PyMongoError e),
           sent c (Some (PyMongoError e)) (coll w) w)) ∨
  (∃ x, refusal = Some x ∧
        encoded_round_trip c refusal server w = (Raise x, w)) ∨
  refusal = None ∧
  encoded_round_trip c refusal server w =
    ((server (coll w)).1,
     sent c (outcome (server (coll w)).1) (server (coll w)).2 w).
Proof.
  unfold encoded_round_trip.
  destruct (head (faults w)) as [[e|]|]; [|destruct refusal..]; eauto.
Qed.

Lemma list_find_replace {A} (P : A → Prop) `{!∀ x, Decision (P x)}
    (l : list A) n x y :
  list_find P l = Some (n, x) → P y →
  list_find P (<[n := y]> l) = Some (n, y).
Proof.
  intros (Hn & _ & Hbefore)%list_find_Some Hy.
  apply list_find_insert_Some. right. left.
  split_and!; [done|done|by eapply lookup_lt_Some|done|done].
Qed.

Lemma matches_union_vars i (item : ItemBase) (d : document) :
  matches (by_id i) d → matches (by_id i) (vars item ∪ d).
Proof.
  rewrite !matches_by_id. intros Hd.
  by rewrite lookup_union_r by apply vars_lookup_ID.
Qed.

Lemma vars_union_twice (item : ItemBase) (d : document) :
  vars item ∪ (vars item ∪ d) = vars item ∪ d.
Proof. by rewrite (assoc_L (∪)), (idemp_L (∪)). Qed.

Section Validation.
Context `{!Builtins}.

Lemma Item_call_Ok_id v (d : document) it :
  Item_call v d = Ok it → d !! "id" = None.
Proof. unfold Item_call. by destruct (d !! "id"). Qed.

Lemma Item_call_Ok_str i (d : document) it :
  Item_call (VStr i) d = Ok it → id it = i.
Proof.
  unfold Item_call. destruct (d !! "id"); [done|]. unfold Item_init.
  rewrite lookup_insert_eq. simpl.
  repeat (case_match; try done). by intros [= <-].
Qed.

Lemma Item_call_union i (item : ItemBase) (d : document) :
  d !! "id" = None →
  Item_call (VStr i) (vars item ∪ d) = Ok (mkItem item i).
Proof.
  intros Hid. unfold Item_call.
  rewrite lookup_union_r by apply vars_lookup_id. rewrite Hid.
  unfold Item_init. rewrite lookup_insert_eq.
  rewrite !lookup_insert_ne by done.
  rewrite (lookup_union_Some_l _ _ "name" (VStr (name item))) by done.
  rewrite (lookup_union_Some_l _ _ "description"
             (VStr (description item))) by done.
  rewrite (lookup_union_Some_l _ _ "price" (VFloat (price item))) by done.
  by destruct item.
Qed.


End Validation.

(** *** Every run of the repository functions *)

Lemma calm_head w e : calm 1 w → head (faults w) ≠ Some (Some e).
Proof.
  unfold calm. destruct (faults w) as [|f fs]; simpl; [done|].
  rewrite take_0. inversion 1; simplify_eq. done.
Qed.

Section Any_world.
Context `{!Builtins}.

Lemma read_item_run i w :
  (∃ e, head (faults w) = Some (Some e) ∧
        crud_item.read_item i w =
          (Raise (PyMongoError e),
           sent (CmdFindOne (by_id i)) (Some (PyMongoError e)) (coll w) w)) ∨
  crud_item.read_item i w =
    (match list_find (matches (by_id i)) (coll w) with
     | None => Ok None
     | Some (n, d) =>
         match Item_call (VStr i) d with
         | Ok it => Ok (Some it)
         | Raise e => Raise e
         end
     end,
     sent (CmdFindOne (by_id i)) None (coll w) w).
Proof.
  unfold crud_item.read_item, Motor.find_one, bind. fold (by_id i).
  destruct (round_trip_cases (CmdFindOne (by_id i))
              (server_find_one (by_id i)) w) as [(e & He & ->)| ->].
  { left. eauto. }
  right. unfold server_find_one. simpl.
  destruct (list_find (matches (by_id i)) (coll w)) as [[n d]|] eqn:E;
    simpl; [|done].
  apply list_find_Some in E as (_ & Hm%matches_by_id & _).
  unfold subscript. rewrite Hm. unfold ret at 1, lift.
  by destruct (Item_call (VStr i) d).
Qed.

Lemma update_item_run i (item : ItemBase) w :
  (∃ e, head (faults w) = Some (Some e) ∧
        crud_item.update_item i item w =
          (Raise (PyMongoError e),
           sent (CmdUpdate (by_id i) (Set_ (vars item)))
             (Some (PyMongoError e)) (coll w) w)) ∨
  crud_item.update_item i item w =
    match list_find (matches (by_id i)) (coll w) with
    | Some (n, d) =>
        if decide (vars item ∪ d = d)
        then (Ok None,
              sent (CmdUpdate (by_id i) (Set_ (vars item))) None (coll w) w)
        else (Ok (Some (mkItem item i)),
              sent (CmdUpdate (by_id i) (Set_ (vars item))) None
                (<[n := vars item ∪ d]> (coll w)) w)
    | None =>
        (Ok None,
         sent (CmdUpdate (by_id i) (Set_ (vars item))) None (coll w) w)
    end.
Proof.
  unfold crud_item.update_item, Motor.update_one, bind. fold (by_id i).
  destruct (round_trip_cases (CmdUpdate (by_id i) (Set_ (vars item)))
              (server_update (by_id i) (Set_ (vars item))) w)
    as [(e & He & ->)| ->].
  { left. eauto. }
  right. unfold server_update.
  destruct (list_find (matches (by_id i)) (coll w)) as [[n d]|]; [|done].
  rewrite decide_False.
  2:{ rewrite vars_lookup_ID. by intros [[? ?] _]. }
  destruct (decide (vars item ∪ d = d)); simpl; [done|].
  unfold lift. by rewrite Item_call_vars.
Qed.

Lemma delete_item_run i w :
  (∃ e, head (faults w) = Some (Some e) ∧
        crud_item.delete_item i w =
          (Raise (PyMongoError e),
           sent (CmdDelete (by_id i)) (Some (PyMongoError e)) (coll w) w)) ∨
  crud_item.delete_item i w =
    (Ok (Z.of_nat (length (filter
           (fun d : document => d !! ID = Some (VStr i)) (coll w)))),
     sent (CmdDelete (by_id i)) None
       (filter (fun d : document => d !! ID ≠ Some (VStr i)) (coll w)) w).
Proof.
  unfold crud_item.delete_item, Motor.delete_many, bind. fold (by_id i).
  destruct (round_trip_cases (CmdDelete (by_id i))
              (server_delete (by_id i)) w) as [(e & He & ->)| ->].
  { left. eauto. }
  right. unfold server_delete. simpl.
  by rewrite filter_by_id, filter_not_by_id.
Qed.

Lemma create_item_bind (item : ItemBase) w :
  let it := mkItem item (next_id w) in
  crud_item.create_item item w =
    bind (round_trip (CmdInsert (doc_of_item it))
            (server_insert (VStr (id it)) (doc_of_item it)))
      (fun r => lift (Item_call (inserted_id r) (doc_of_item it)))
      (drew w).
Proof.
  intros it. unfold crud_item.create_item, bind. unfold uuid.uuid4.
  fold (next_id w).
  change (<[ID:=VStr (next_id w)]> (vars item)) with (doc_of_item it).
  by rewrite insert_one_item.
Qed.

Lemma create_item_run (item : ItemBase) w :
  let it := mkItem item (next_id w) in
  (∃ e, head (faults w) = Some (Some e) ∧
        crud_item.create_item item w =
          (Raise (PyMongoError e),
           sent (CmdInsert (doc_of_item it)) (Some (PyMongoError e))
             (coll w) (drew w))) ∨
  (¬ unknown_id (next_id w) (coll w) ∧
   crud_item.create_item item w =
     (Raise DuplicateKeyError,
      sent (CmdInsert (doc_of_item it)) (Some DuplicateKeyError)
        (coll w) (drew w))) ∨
  (unknown_id (next_id w) (coll w) ∧
   crud_item.create_item item w =
     (Ok it,
      sent (CmdInsert (doc_of_item it)) None (coll w ++ [doc_of_item it])
        (drew w))).
Proof.
  intros it. rewrite create_item_bind. fold it. unfold bind.
  destruct (round_trip_cases (CmdInsert (doc_of_item it))
              (server_insert (VStr (id it)) (doc_of_item it)) (drew w))
    as [(e & He & ->)| ->].
  { left. eauto. }
  right. unfold server_insert. simpl coll.
  destruct (decide (unknown_id (next_id w) (coll w))) as [Hun|Hk].
  - right. split; [done|]. rewrite decide_False.
    2:{ intros Hex. apply Exists_exists in Hex as (d & Hd & E).
        eapply Forall_forall in Hun; [|exact Hd]. done. }
    cbn [fst snd inserted_id outcome]. unfold lift.
    by rewrite (Item_call_doc it).
  - left. split; [done|]. rewrite decide_True; [done|].
    apply not_Forall_Exists in Hk; [|apply _].
    eapply Exists_impl; [exact Hk|]. simpl. intros d Hd.
    by destruct (decide (d !! ID = Some (VStr (next_id w)))).
Qed.

Lemma for_each_validate (docs : list document) w :
  for_each (fun result : document =>
              v <- subscript result ID ;; lift (Item_call v result))
    docs w = (validate_all docs, w).
Proof.
  induction docs as [|d docs IH]; [done|]. cbn [for_each validate_all].
  unfold validate. destruct (d !! ID) as [v|] eqn:Ev.
  - destruct (Item_call v d) as [it|e] eqn:Ec.
    + erewrite bind_Ok.
      2:{ erewrite bind_Ok; [|unfold subscript; rewrite Ev; reflexivity].
          unfold lift. rewrite Ec. reflexivity. }
      destruct (validate_all docs) as [its|e].
      * erewrite bind_Ok; [|exact IH]. reflexivity.
      * erewrite bind_Raise; [|exact IH]. reflexivity.
    + erewrite bind_Raise; [reflexivity|].
      erewrite bind_Ok; [|unfold subscript; rewrite Ev; reflexivity].
      unfold lift. by rewrite Ec.
  - erewrite bind_Raise; [reflexivity|].
    erewrite bind_Raise; [reflexivity|]. unfold subscript. by rewrite Ev.
Qed.

Lemma get_all_items_bind skip limit w :
  0 ≤ skip → 0 ≤ limit →
  crud_item.get_all_items skip limit w =
    bind (encoded_round_trip (CmdFind ∅ skip limit) (Motor.bson_int skip)
            (server_find ∅ skip limit))
      (for_each (fun result : document =>
                   v <- subscript result ID ;;
                   lift (Item_call v result))) w.
Proof.
  intros Hs Hl. unfold crud_item.get_all_items, Motor.skip, Motor.to_list.
  rewrite decide_False by lia. unfold bind at 1. unfold ret at 1.
  cbn [Motor.c_filter Motor.c_skip Motor.find].
  by rewrite decide_False by lia.
Qed.

Lemma get_all_items_run skip limit w :
  (skip < 0 ∨ limit < 0) ∧
    crud_item.get_all_items skip limit w = (Raise ValueError, w) ∨
  (∃ e, head (faults w) = Some (Some e) ∧
        crud_item.get_all_items skip limit w =
          (Raise (PyMongoError e),
           sent (CmdFind ∅ skip limit) (Some (PyMongoError e)) (coll w) w)) ∨
  (2 ^ 63 ≤ skip ∧ 0 ≤ limit) ∧
    crud_item.get_all_items skip limit w = (Raise OverflowError, w) ∨
  0 ≤ skip < 2 ^ 63 ∧ 0 ≤ limit ∧
    crud_item.get_all_items skip limit w =
      (validate_all (page skip limit (coll w)),
       sent (CmdFind ∅ skip limit) None (coll w) w).
Proof.
  destruct (decide (skip < 0 ∨ limit < 0)) as [Hneg|Hpos].
  { left. split; [done|]. by apply get_all_items_negative. }
  right. rewrite get_all_items_bind by lia. unfold bind.
  destruct (encoded_round_trip_cases (CmdFind ∅ skip limit)
              (Motor.bson_int skip) (server_find ∅ skip limit) w)
    as [(e & He & ->)|[(x & Hx & ->)|[Hx ->]]].
  { left. eauto. }
  { right. left. unfold Motor.bson_int in Hx.
    case_decide; [|done]. injection Hx as <-. split; [lia|done]. }
  right. right. unfold Motor.bson_int in Hx. case_decide; [done|].
  split_and!; [lia|lia|lia|]. unfold server_find.
  cbn [fst snd outcome]. rewrite filter_all. fold (page skip limit (coll w)).
  by rewrite for_each_validate.
Qed.
End Any_world.

(** *** Reads and creation *)

Section Reads_and_creation.
Context `{!Builtins}.

(** Neither GET changes the collection, whatever the parameters, the
    stored documents and the fate of the round trip. *)
Theorem reads_leave_collection (w : world) (item_id : string)
    (qskip qlimit : option qvalue) :
  coll (app (GET_item item_id) w).2 = coll w ∧
  coll (app (GET_items qskip qlimit) w).2 = coll w.
Proof.
  split.
  - destruct (keeps_get_item eq item_id w) as [Hk _].
    symmetry. exact Hk.
  - simpl. destruct (get_all_items_params qskip qlimit) as [[s l]|]; [|done].
    destruct (keeps_get_all_items eq s l w) as [Hk _].
    symmetry. exact Hk.
Qed.

Lemma post_item_run (item : ItemBase) w :
  app (POST_item item) w =
    (match (crud_item.create_item item w).1 with
     | Ok it =>
         match render_item it with
         | Ok b => Ok {| status_code := 201; body := b |}
         | Raise e => Raise e
         end
     | Raise e => Raise e
     end, (crud_item.create_item item w).2).
Proof.
  unfold app. rewrite route_run. unfold endpoints.post_item, bind.
  by destruct (crud_item.create_item item w) as [[it|e] w1].
Qed.

(** The three ways a POST can end.  It answers 201 with the item under
    the next identifier (thirty-six characters), which was not in use
    and whose price is finite, and the collection is the former one with
    the item's document added at the end.  Or the insert did not happen:
    the round trip failed or the identifier was in use, the request ends
    in that exception and the collection is as it was.  Or the price is
    infinite or NaN: the document is added all the same, and the request
    then ends in the ValueError of the rendering, with no answer. *)
Theorem post_outcomes (item : ItemBase) (w : world) :
  let created := app (POST_item item) w in
  let it := mkItem item (next_id w) in
  (finite_float (price item) ∧
   created.1 = Ok {| status_code := 201; body := JItem it |} ∧
   coll created.2 = coll w ++ [doc_of_item it] ∧
   unknown_id (id it) (coll w) ∧
   String.length (id it) = 36%nat) ∨
  ((∃ e, created.1 = Raise (PyMongoError e)) ∨
   created.1 = Raise DuplicateKeyError ∧ ¬ unknown_id (id it) (coll w)) ∧
  coll created.2 = coll w ∨
  ¬ finite_float (price item) ∧
  created.1 = Raise ValueError ∧
  coll created.2 = coll w ++ [doc_of_item it] ∧
  unknown_id (id it) (coll w).
Proof.
  intros created it. unfold created. rewrite post_item_run.
  destruct (create_item_run item w) as [(e & _ & ->)|[[Hk ->]|[Hun ->]]].
  - right. left. split; [|done]. left. by exists e.
  - right. left. split; [|done]. by right.
  - cbn [fst snd]. fold it. unfold render_item.
    destruct (decide (finite_float (price it))) as [Hf|Hf].
    + left. split_and!; [done|done|done|done|apply uuid_str_length].
    + right. right. done.
Qed.

(** A POST never overwrites: when the generated identifier is already
    in use, the unique index refuses the insert, the request ends in
    DuplicateKeyError and the collection is as it was. *)
Theorem post_never_overwrites (item : ItemBase) (w : world) :
  calm 1 w →
  ¬ unknown_id (next_id w) (coll w) →
  (app (POST_item item) w).1 = Raise DuplicateKeyError ∧
  coll (app (POST_item item) w).2 = coll w.
Proof.
  intros Hc Hk. rewrite post_item_run.
  destruct (create_item_run item w) as [(e & He & _)|[[_ ->]|[Hun _]]].
  - by apply calm_head in He.
  - done.
  - done.
Qed.
End Reads_and_creation.

(** *** Updating: every run *)

Section Put_runs.
Context `{!Builtins}.

Lemma put_item_run i (item : ItemBase) w r w' :
  app (PUT_item i item) w = (r, w') →
  ((∃ e, r = Raise e) ∧ coll w' = coll w) ∨
  (r = Ok (Response_ 404) ∧ coll w' = coll w ∧
   list_find (matches (by_id i)) (coll w) = None) ∨
  (∃ n d, list_find (matches (by_id i)) (coll w) = Some (n, d) ∧
     d !! "id" = None ∧ vars item ∪ d = d ∧
     r = Ok (Response_ 304) ∧ coll w' = coll w) ∨
  (∃ n d, list_find (matches (by_id i)) (coll w) = Some (n, d) ∧
     d !! "id" = None ∧ vars item ∪ d ≠ d ∧
     r = (if decide (finite_float (price item))
          then Ok {| status_code := 200; body := JItem (mkItem item i) |}
          else Raise ValueError) ∧
     coll w' = <[n := vars item ∪ d]> (coll w)).
Proof.
  unfold app. rewrite route_run. unfold endpoints.update_item, bind.
  destruct (read_item_run i w) as [(e & _ & ->)| ->].
  { intros [= <- <-]. left. eauto. }
  destruct (list_find (matches (by_id i)) (coll w)) as [[n d]|] eqn:E.
  2:{ intros [= <- <-]. right. left. done. }
  destruct (Item_call (VStr i) d) as [it|e] eqn:Ecall.
  2:{ intros [= <- <-]. left. eauto. }
  apply Item_call_Ok_id in Ecall.
  destruct (update_item_run i item
              (sent (CmdFindOne (by_id i)) None (coll w) w))
    as [(e & _ & ->)| ->].
  { intros [= <- <-]. left. eauto. }
  simpl coll. rewrite E.
  destruct (decide (vars item ∪ d = d)) as [Heq|Hne].
  - intros [= <- <-]. right. right. left. exists n, d. done.
  - cbn [fst snd]. unfold render_item. cbn [price Item_base].
    intros [= <- <-]. right. right. right. exists n, d.
    split_and!; try done. by case_decide.
Qed.

(** A PUT changes the collection only when it answers 200, or when the
    new price is infinite or NaN and it ends in the ValueError of the
    rendering; in every other case (another exception, 404, 304) the
    collection is as it was. *)
Theorem put_writes_only_with_200 (item_id : string) (item : ItemBase)
    (w : world) :
  let updated := app (PUT_item item_id item) w in
  coll updated.2 = coll w ∨
  finite_float (price item) ∧
  updated.1 =
    Ok {| status_code := 200; body := JItem (mkItem item item_id) |} ∨
  ¬ finite_float (price item) ∧ updated.1 = Raise ValueError.
Proof.
  intros updated.
  destruct (put_item_run item_id item w updated.1 updated.2
              (surjective_pairing _))
    as [[_ ?]|[(_ & ? & _)|[(n & d & _ & _ & _ & _ & ?)
         |(n & d & _ & _ & _ & Hr & _)]]]; auto.
  right. destruct (decide (finite_float (price item))); auto.
Qed.

(** A PUT touches one document at most: the collection keeps its
    length, and every document whose [_id] is not the requested one
    stays where it was, as it was. *)
Theorem put_keeps_other_documents (item_id : string) (item : ItemBase)
    (w : world) :
  let updated := app (PUT_item item_id item) w in
  length (coll updated.2) = length (coll w) ∧
  ∀ n (d : document),
    coll w !! n = Some d → d !! ID ≠ Some (VStr item_id) →
    coll updated.2 !! n = Some d.
Proof.
  intros updated.
  destruct (put_item_run item_id item w updated.1 updated.2
              (surjective_pairing _))
    as [[_ E]|[(_ & E & _)|[(n & d & _ & _ & _ & _ & E)
         |(n & d & Hfind & _ & _ & _ & E)]]];
    rewrite E; try done.
  split; [apply length_insert|]. intros n' d' Hn' Hid.
  apply list_find_Some in Hfind as (Hn & Hm%matches_by_id & _).
  rewrite list_lookup_insert_ne; [done|]. intros ->. congruence.
Qed.

Lemma get_item_calm i w :
  calm 1 w →
  (app (GET_item i) w).1 =
    match list_find (matches (by_id i)) (coll w) with
    | None => Ok {| status_code := 404; body := Empty |}
    | Some (n, d) =>
        match Item_call (VStr i) d with
        | Ok it =>
            match render_item it with
            | Ok b => Ok {| status_code := 200; body := b |}
            | Raise e => Raise e
            end
        | Raise e => Raise e
        end
    end.
Proof.
  intros Hc. unfold app. rewrite route_run.
  unfold endpoints.get_item, bind.
  destruct (read_item_run i w) as [(e & He & _)| ->].
  { by apply calm_head in He. }
  destruct (list_find (matches (by_id i)) (coll w)) as [[n d]|]; [|done].
  by destruct (Item_call (VStr i) d).
Qed.

(** PUT, then GET: once a PUT has answered 200, a GET of the id answers
    200 with the id and the fields of that PUT: the store holds what
    the response said. *)
Theorem update_then_get (item_id : string) (item : ItemBase)
    (w w' : world) (resp : Response) :
  app (PUT_item item_id item) w = (Ok resp, w') →
  status_code resp = 200 →
  calm 1 w' →
  (app (GET_item item_id) w').1 =
    Ok {| status_code := 200; body := JItem (mkItem item item_id) |}.
Proof.
  intros Hput Hst Hc.
  destruct (put_item_run _ _ _ _ _ Hput)
    as [[[e ?] _]|[(? & _)|[(n & d & _ & _ & _ & ? & _)
         |(n & d & Hfind & Hid & _ & Hr & E)]]]; simplify_eq; try done.
  destruct (decide (finite_float (price item))) as [Hf|]; [|done].
  rewrite get_item_calm by done. rewrite E.
  rewrite (list_find_replace _ _ _ _ (vars item ∪ d) Hfind).
  - rewrite Item_call_union by done. by rewrite render_item_finite.
  - apply matches_union_vars.
    by apply list_find_Some in Hfind as (_ & ? & _).
Qed.

(** The same PUT again: once a PUT has answered 200, repeating it
    answers 304 and leaves the collection as the first one left it. *)
Theorem put_again_304 (item_id : string) (item : ItemBase)
    (w w' : world) (resp : Response) :
  app (PUT_item item_id item) w = (Ok resp, w') →
  status_code resp = 200 →
  calm 2 w' →
  (app (PUT_item item_id item) w').1 =
    Ok {| status_code := 304; body := Empty |} ∧
  coll (app (PUT_item item_id item) w').2 = coll w'.
Proof.
  intros Hput Hst Hc.
  destruct (put_item_run _ _ _ _ _ Hput)
    as [[[e ?] _]|[(? & _)|[(n & d & _ & _ & _ & ? & _)
         |(n & d & Hfind & Hid & _ & _ & E)]]]; simplify_eq; try done.
  assert (list_find (matches (by_id item_id)) (coll w') =
          Some (n, vars item ∪ d)) as Hfind'.
  { rewrite E. apply (list_find_replace _ _ _ d); [done|].
    apply matches_union_vars.
    by apply list_find_Some in Hfind as (_ & ? & _). }
  assert (calm 1 w') as Hc1 by (eapply calm_le; [|exact Hc]; lia).
  unfold app. rewrite route_run. unfold endpoints.update_item, bind.
  destruct (read_item_run item_id w') as [(e & He & _)| ->].
  { by apply calm_head in He. }
  rewrite Hfind', Item_call_union by done.
  destruct (update_item_run item_id item
              (sent (CmdFindOne (by_id item_id)) None (coll w') w'))
    as [(e & He & _)| ->].
  { eapply calm_head in He; [done|]. by apply calm_S. }
  simpl coll. rewrite Hfind'.
  by rewrite decide_True by apply vars_union_twice.
Qed.

End Put_runs.

(** *** Deleting, and requests that fail *)

Lemma filter_unknown_id i (docs : list document) :
  unknown_id i docs →
  filter (fun d : document => d !! ID ≠ Some (VStr i)) docs = docs.
Proof.
  induction 1 as [|d docs Hd _ IH]; [done|].
  rewrite filter_cons_True by done. by rewrite IH.
Qed.

Section Delete_runs.
Context `{!Builtins}.

Lemma delete_item_request_run i w :
  (∃ e, head (faults w) = Some (Some e) ∧
        app (DELETE_item i) w =
          (Raise (PyMongoError e),
           sent (CmdDelete (by_id i)) (Some (PyMongoError e)) (coll w) w)) ∨
  app (DELETE_item i) w =
    (Ok (Response_
           (if decide (unknown_id i (coll w)) then 404 else 204)),
     sent (CmdDelete (by_id i)) None
       (filter (fun d : document => d !! ID ≠ Some (VStr i)) (coll w)) w).
Proof.
  unfold app. rewrite route_run. unfold endpoints.delete_item, bind.
  destruct (delete_item_run i w) as [(e & He & ->)| ->].
  { left. eauto. }
  right. pose proof (unknown_id_count i (coll w)) as Hcount.
  destruct (decide (unknown_id i (coll w))) as [Hun|Hk].
  - rewrite decide_True; [done|]. apply Hcount in Hun. by rewrite Hun.
  - rewrite decide_False; [done|]. intros Hz. apply Hk, Hcount. lia.
Qed.

(** DELETE, then DELETE again: whatever the first one found, the
    second answers 404 and leaves the collection as the first one left
    it. *)
Theorem delete_again_404 (item_id : string) (w : world) :
  calm 2 w →
  let w1 := (app (DELETE_item item_id) w).2 in
  (app (DELETE_item item_id) w1).1 =
    Ok {| status_code := 404; body := Empty |} ∧
  coll (app (DELETE_item item_id) w1).2 = coll w1.
Proof.
  intros Hc w1.
  assert (unknown_id item_id (coll w1) ∧ calm 1 w1) as [Hun Hc1].
  { unfold w1.
    destruct (delete_item_request_run item_id w) as [(e & He & _)| ->].
    - eapply calm_head in He; [done|]. eapply calm_le; [|exact Hc]. lia.
    - split; [apply unknown_id_filter|by apply calm_S]. }
  destruct (delete_item_request_run item_id w1) as [(e & He & _)| ->].
  { by apply calm_head in He. }
  rewrite decide_True by done. simpl.
  by rewrite filter_unknown_id.
Qed.

(** No partial writes but one: a request that ends in an exception
    leaves the collection as it was, unless the exception is the
    ValueError of rendering a price that is infinite or NaN.  So it does
    whenever the exception is another one, and whenever the body of the
    request carries a finite price or there is none. *)
Theorem failed_request_leaves_collection (req : request) (w : world)
    (e : exn) :
  (app req w).1 = Raise e →
  e ≠ ValueError ∨ finite_body req →
  coll (app req w).2 = coll w.
Proof.
  destruct req as [i|qs ql|item|i item|i].
  - intros _ _. destruct (keeps_get_item eq i w) as [Hk _].
    symmetry. exact Hk.
  - intros _ _. simpl.
    destruct (get_all_items_params qs ql) as [[s l]|]; [|done].
    destruct (keeps_get_all_items eq s l w) as [Hk _].
    symmetry. exact Hk.
  - rewrite post_item_run.
    destruct (create_item_run item w) as [(e' & _ & ->)|[[_ ->]|[_ ->]]];
      [done..|].
    cbn [fst snd]. unfold render_item. cbn [price Item_base finite_body].
    case_decide; [done|]. intros [= <-] [?|?]; done.
  - intros He Hor.
    destruct (put_item_run i item w _ _ (surjective_pairing _))
      as [[_ E]|[(_ & E & _)|[(n & d & _ & _ & _ & _ & E)
           |(n & d & _ & _ & _ & Hr & _)]]]; try done.
    rewrite Hr in He. cbn [finite_body] in Hor.
    case_decide; [done|]. injection He as <-. by destruct Hor.
  - destruct (delete_item_request_run i w) as [(e' & _ & ->)| ->]; done.
Qed.
End Delete_runs.

(** *** The answers *)

Section Answers.
Context `{!Builtins}.


(** A GET of one item that answers 200 answers with the id that was
    asked for, made from the first document of the collection that
    carries it. *)
Theorem get_item_answers_requested_id (item_id : string) (w : world)
    (resp : Response) :
  (app (GET_item item_id) w).1 = Ok resp →
  status_code resp = 200 →
  ∃ it n d,
    body resp = JItem it ∧ id it = item_id ∧
    list_find (matches (by_id item_id)) (coll w) = Some (n, d) ∧
    validate d = Ok it.
Proof.
  unfold app. rewrite route_run. unfold endpoints.get_item, bind.
  destruct (read_item_run item_id w) as [(e & _ & ->)| ->]; [done|].
  destruct (list_find (matches (by_id item_id)) (coll w))
    as [[n d]|] eqn:E; [|by intros [= <-]].
  destruct (Item_call (VStr item_id) d) as [it|e] eqn:Ecall; [|done].
  unfold ret. cbn [fst]. destruct (render_item it) as [b|e] eqn:Hr; [|done].
  apply render_item_Ok in Hr as [_ ->].
  intros [= <-] _. exists it, n, d. split_and!; try done.
  - by eapply Item_call_Ok_str.
  - apply list_find_Some in E as (_ & Hm%matches_by_id & _).
    unfold validate. by rewrite Hm.
Qed.

End Answers.

(** *** Listings *)

Section Listings.
Context `{!Builtins}.

Lemma validate_doc_of_item it : validate (doc_of_item it) = Ok it.
Proof. unfold validate. by rewrite doc_of_item_ID, Item_call_doc. Qed.



Lemma get_all_items_request_calm skip limit w :
  calm 1 w → 0 ≤ skip < 2 ^ 63 → 0 ≤ limit →
  (app (GET_items (Some (QInt skip)) (Some (QInt limit))) w).1 =
    match validate_all (page skip limit (coll w)) with
    | Ok its =>
        match render_items its with
        | Ok b => Ok {| status_code := 200; body := b |}
        | Raise e => Raise e
        end
    | Raise e => Raise e
    end.
Proof.
  intros Hc Hs Hl.
  change (app (GET_items (Some (QInt skip)) (Some (QInt limit))) w)
    with (route HTTP_200_OK render_items
            (endpoints.get_all_items skip limit) w).
  rewrite route_run. unfold endpoints.get_all_items, bind.
  destruct (get_all_items_run skip limit w)
    as [[Hneg _]|[(e & He & _)|[[[Hbig _] _]|(_ & _ & ->)]]].
  - lia.
  - by apply calm_head in He.
  - lia.
  - by destruct (validate_all (page skip limit (coll w))).
Qed.


Lemma validate_all_items (its : list Item) :
  validate_all (doc_of_item <$> its) = Ok its.
Proof.
  induction its as [|it its IH]; [done|].
  rewrite fmap_cons. simpl. by rewrite validate_doc_of_item, IH.
Qed.

Lemma listing_items skip limit (its : list Item) w :
  calm 1 w → coll w = doc_of_item <$> its →
  0 ≤ skip < 2 ^ 63 → 0 ≤ limit →
  Forall (fun it : Item => finite_float (price it))
    (take (Z.to_nat limit) (drop (Z.to_nat skip) its)) →
  (app (GET_items (Some (QInt skip)) (Some (QInt limit))) w).1 =
    Ok {| status_code := 200;
          body := JItems (take (Z.to_nat limit)
                            (drop (Z.to_nat skip) its)) |}.
Proof.
  intros Hc E Hs Hl Hf. rewrite get_all_items_request_calm by done.
  unfold page. rewrite E, <- fmap_drop, <- fmap_take.
  by rewrite validate_all_items, render_items_finite.
Qed.

(** Consecutive pages join up: over an unchanged collection of items,
    the page of [l1] after [skip] followed by the page of [l2] after
    [skip + l1] is the page of [l1 + l2] after [skip]; nothing is lost
    or repeated at the seam, and no page is longer than its limit.  The
    skips are ones that the driver can encode, and the prices on the
    joined page are finite. *)
Theorem pages_join_up (its : list Item) (w : world) (skip l1 l2 : Z) :
  calm 1 w →
  coll w = doc_of_item <$> its →
  0 ≤ skip → 0 ≤ l1 → 0 ≤ l2 → skip + l1 < 2 ^ 63 →
  Forall (fun it : Item => finite_float (price it))
    (take (Z.to_nat (l1 + l2)) (drop (Z.to_nat skip) its)) →
  ∃ p1 p2,
    (app (GET_items (Some (QInt skip)) (Some (QInt l1))) w).1 =
      Ok {| status_code := 200; body := JItems p1 |} ∧
    (app (GET_items (Some (QInt (skip + l1))) (Some (QInt l2))) w).1 =
      Ok {| status_code := 200; body := JItems p2 |} ∧
    (app (GET_items (Some (QInt skip)) (Some (QInt (l1 + l2)))) w).1 =
      Ok {| status_code := 200; body := JItems (p1 ++ p2) |} ∧
    (length p1 ≤ Z.to_nat l1)%nat ∧ (length p2 ≤ Z.to_nat l2)%nat.
Proof.
  intros Hc E Hs H1 H2 Hbig Hf.
  assert (take (Z.to_nat (l1 + l2)) (drop (Z.to_nat skip) its) =
          take (Z.to_nat l1) (drop (Z.to_nat skip) its) ++
          take (Z.to_nat l2) (drop (Z.to_nat (skip + l1)) its)) as Hjoin.
  { rewrite !Z2Nat.inj_add by lia.
    by rewrite <- (drop_drop its), take_take_drop. }
  pose proof Hf as Hf'. rewrite Hjoin in Hf'.
  apply Forall_app in Hf' as [Hf1 Hf2].
  exists (take (Z.to_nat l1) (drop (Z.to_nat skip) its)),
         (take (Z.to_nat l2) (drop (Z.to_nat (skip + l1)) its)).
  rewrite !(listing_items _ _ its w) by (done || lia).
  split_and!; [done|done| |rewrite length_take; lia..].
  by rewrite Hjoin.
Qed.

(** Skipping as many items as there are, or more, gives the empty
    list, with 200, as long as the skip is below 2^63; from there on
    the driver cannot encode it, and the request ends in OverflowError
    with nothing sent. *)
Theorem listing_past_the_end (its : list Item) (w : world)
    (skip limit : Z) :
  calm 1 w →
  coll w = doc_of_item <$> its →
  Z.of_nat (length its) ≤ skip → 0 ≤ limit →
  let listed := app (GET_items (Some (QInt skip)) (Some (QInt limit))) w in
  (skip < 2 ^ 63 →
     listed.1 = Ok {| status_code := 200; body := JItems [] |}) ∧
  (2 ^ 63 ≤ skip → listed.1 = Raise OverflowError ∧ listed.2 = w).
Proof.
  intros Hc E Hs Hl listed. unfold listed. split.
  - intros Hsmall.
    assert (take (Z.to_nat limit) (drop (Z.to_nat skip) its) = [])
      as Hnil.
    { rewrite drop_ge by lia. by rewrite take_nil. }
    rewrite (listing_items _ _ its w); [by rewrite Hnil|done|done|lia|done|].
    rewrite Hnil. constructor.
  - intros Hbig.
    change (app (GET_items (Some (QInt skip)) (Some (QInt limit))) w)
      with (route HTTP_200_OK render_items
              (endpoints.get_all_items skip limit) w).
    rewrite route_run. unfold endpoints.get_all_items, bind.
    destruct (get_all_items_run skip limit w)
      as [[Hneg _]|[(e & He & _)|[[_ ->]|([_ Hsmall] & _)]]].
    + lia.
    + by apply calm_head in He.
    + done.
    + lia.
Qed.
End Listings.

(** *** How many round trips a request makes *)

Lemma sends_quiet {A} (m : M A) :
  (∀ w, wire (m w).2 = wire w) → sends 0 m.
Proof. intros Hq w. exists []. by rewrite app_nil_r, Hq. Qed.

Lemma sends_le {A} n k (m : M A) : (n ≤ k)%nat → sends n m → sends k m.
Proof.
  intros Hle Hm w. destruct (Hm w) as (new & E & Hn).
  exists new. split; [done|lia].
Qed.

Lemma sends_bind {A B} n k (m : M A) (f : A → M B) :
  sends n m → (∀ a, sends k (f a)) → sends (n + k) (bind m f).
Proof.
  intros Hm Hf w. destruct (Hm w) as (n1 & E1 & H1). unfold bind.
  destruct (m w) as [[a|e] w1]; simpl in *.
  - destruct (Hf a w1) as (n2 & E2 & H2). exists (n1 ++ n2).
    rewrite E2, E1, app_assoc, length_app. split; [done|lia].
  - exists n1. split; [done|lia].
Qed.

Lemma sends_round_trip {A} c
    (server : list document → result A * list document) :
  sends 1 (round_trip c server).
Proof.
  intros w. unfold round_trip.
  destruct (head (faults w)) as [[e|]|]; simpl; by eexists.
Qed.

Lemma sends_encoded_round_trip {A} c refusal
    (server : list document → result A * list document) :
  sends 1 (encoded_round_trip c refusal server).
Proof.
  intros w. unfold encoded_round_trip.
  destruct (head (faults w)) as [[e|]|]; [|destruct refusal..]; simpl;
    try (by eexists).
  - exists []. rewrite app_nil_r. split; [done|simpl; lia].
  - exists []. rewrite app_nil_r. split; [done|simpl; lia].
Qed.

Lemma sends_for_each {A B} (f : A → M B) l :
  (∀ a, sends 0 (f a)) → sends 0 (for_each f l).
Proof.
  intros Hf. induction l as [|x l IH]; simpl; [by apply sends_quiet|].
  apply (sends_bind 0 0); [apply Hf|]. intros y.
  apply (sends_bind 0 0); [apply IH|]. intros ys. by apply sends_quiet.
Qed.

Lemma sends_route {A} n status (render : A → result content) op :
  sends n op → sends n (route status render op).
Proof.
  intros Hop. unfold route. rewrite <- (Nat.add_0_r n).
  apply sends_bind; [done|]. intros [a|resp]; [|by apply sends_quiet].
  apply (sends_bind 0 0); [by apply sends_quiet|]. intros b.
  by apply sends_quiet.
Qed.

Section Round_trips.
Context `{!Builtins}.

Lemma sends_validate (d : document) :
  sends 0 (v <- subscript d ID ;; lift (Item_call v d)).
Proof.
  apply (sends_bind 0 0).
  - unfold subscript. by destruct (d !! ID); apply sends_quiet.
  - intros v. by apply sends_quiet.
Qed.

Lemma sends_read_item i : sends 1 (crud_item.read_item i).
Proof.
  unfold crud_item.read_item.
  apply (sends_bind 1 0); [apply sends_round_trip|].
  intros [d|]; [|by apply sends_quiet].
  apply (sends_bind 0 0).
  { unfold subscript. by destruct (d !! ID); apply sends_quiet. }
  intros v. apply (sends_bind 0 0); [by apply sends_quiet|].
  intros it. by apply sends_quiet.
Qed.

Lemma sends_get_all_items skip limit :
  sends 1 (crud_item.get_all_items skip limit).
Proof.
  unfold crud_item.get_all_items. apply (sends_bind 0 1).
  { unfold Motor.skip. by case_decide; apply sends_quiet. }
  intros cursor. apply (sends_bind 1 0).
  { unfold Motor.to_list. case_decide; [|apply sends_encoded_round_trip].
    eapply sends_le; [|by apply sends_quiet]. lia. }
  intros results. apply sends_for_each. intros d. apply sends_validate.
Qed.

Lemma sends_create_item (item : ItemBase) :
  sends 1 (crud_item.create_item item).
Proof.
  unfold crud_item.create_item.
  apply (sends_bind 0 1); [by apply sends_quiet|]. intros u.
  apply (sends_bind 1 0); [|intros r; by apply sends_quiet].
  unfold Motor.insert_one. apply (sends_bind 0 1).
  - unfold Motor.ensure_id. by destruct (_ !! ID); apply sends_quiet.
  - intros p. apply sends_round_trip.
Qed.

Lemma sends_update_item i (item : ItemBase) :
  sends 1 (crud_item.update_item i item).
Proof.
  unfold crud_item.update_item.
  apply (sends_bind 1 0); [apply sends_round_trip|].
  intros report. case_decide; [by apply sends_quiet|].
  apply (sends_bind 0 0); [by apply sends_quiet|].
  intros it. by apply sends_quiet.
Qed.

Lemma sends_delete_item i : sends 1 (crud_item.delete_item i).
Proof.
  unfold crud_item.delete_item.
  apply (sends_bind 1 0); [apply sends_round_trip|].
  intros r. by apply sends_quiet.
Qed.

Lemma sends_app req : sends (round_trip_budget req) (app req).
Proof.
  destruct req as [i|qs ql|item|i item|i]; simpl.
  - apply sends_route. unfold endpoints.get_item.
    apply (sends_bind 1 0); [apply sends_read_item|].
    intros [it|]; by apply sends_quiet.
  - destruct (get_all_items_params qs ql) as [[s l]|].
    + apply sends_route. unfold endpoints.get_all_items.
      apply (sends_bind 1 0); [apply sends_get_all_items|].
      intros its. by apply sends_quiet.
    + eapply sends_le; [|by apply sends_quiet]. lia.
  - apply sends_route. unfold endpoints.post_item.
    apply (sends_bind 1 0); [apply sends_create_item|].
    intros it. by apply sends_quiet.
  - apply sends_route. unfold endpoints.update_item.
    apply (sends_bind 1 1); [apply sends_read_item|].
    intros [it|]; [|eapply sends_le; [|by apply sends_quiet]; lia].
    apply (sends_bind 1 0); [apply sends_update_item|].
    intros [it'|]; by apply sends_quiet.
  - apply sends_route. unfold endpoints.delete_item.
    apply (sends_bind 1 0); [apply sends_delete_item|].
    intros n. by case_decide; apply sends_quiet.
Qed.

(** No request awaits more than one operation of the driver, except
    PUT, which awaits at most two (the lookup, then the write); this
    holds whatever is stored and whatever fails: the listing makes no
    query per item. *)
Theorem request_round_trips (req : request) (w : world) :
  (length (since w (app req w).2) ≤ round_trip_budget req)%nat.
Proof.
  destruct (sends_app req w) as (new & E & Hlen).
  unfold since. by rewrite E, drop_app_length.
Qed.

(** With the database out of reach at the first round trip, every
    request whose parameters get it as far as the driver ends in the
    driver's error, and the collection is as it was. *)
Theorem database_out_of_reach (req : request) (w : world) (e : db_error) :
  head (faults w) = Some (Some e) →
  match req with
  | GET_items qskip qlimit =>
      ∃ s l, get_all_items_params qskip qlimit = Some (s, l) ∧
             0 ≤ s ∧ 0 ≤ l
  | _ => True
  end →
  (app req w).1 = Raise (PyMongoError e) ∧
  coll (app req w).2 = coll w.
Proof.
  intros He Hreq. destruct req as [i|qs ql|item|i item|i].
  - unfold app, route, endpoints.get_item, crud_item.read_item,
      Motor.find_one, bind.
    by rewrite (round_trip_fault _ _ _ e).
  - destruct Hreq as (s & l & Hp & Hs & Hl). unfold app. rewrite Hp.
    unfold route, endpoints.get_all_items, bind.
    rewrite get_all_items_bind by done. unfold bind.
    by rewrite (encoded_round_trip_fault _ _ _ _ e).
  - rewrite post_item_run, create_item_bind. unfold bind.
    by rewrite (round_trip_fault _ _ (drew w) e).
  - unfold app, route, endpoints.update_item, crud_item.read_item,
      Motor.find_one, bind.
    by rewrite (round_trip_fault _ _ _ e).
  - unfold app, route, endpoints.delete_item, crud_item.delete_item,
      Motor.delete_many, bind.
    by rewrite (round_trip_fault _ _ _ e).
Qed.
End Round_trips.

(** *** Requests about one identifier and items under another *)

Lemma first_match_after_delete i j (docs : list document) :
  i ≠ j →
  snd <$> list_find (matches (by_id j))
            (filter (fun d : document => d !! ID ≠ Some (VStr i)) docs) =
  snd <$> list_find (matches (by_id j)) docs.
Proof.
  intros Hne. induction docs as [|d docs IH]; [done|].
  destruct (decide (d !! ID = Some (VStr i))) as [Hi|Hi].
  - rewrite filter_cons_False by (intros Hn; by apply Hn).
    rewrite IH. cbn [list_find]. rewrite decide_False.
    2:{ rewrite matches_by_id, Hi. intros [= ?]. done. }
    by destruct (list_find (matches (by_id j)) docs) as [[m x]|].
  - rewrite filter_cons_True by done. cbn [list_find].
    destruct (decide (matches (by_id j) d)); [done|].
    rewrite <- !option_fmap_compose.
    destruct (list_find (matches (by_id j)) docs) as [[m x]|],
      (list_find (matches (by_id j)) (filter _ docs)) as [[m' x']|];
      simpl in *; congruence.
Qed.

Lemma first_match_after_replace i j (docs : list document) n
    (d d' : document) :
  i ≠ j → docs !! n = Some d →
  matches (by_id i) d → matches (by_id i) d' →
  snd <$> list_find (matches (by_id j)) (<[n := d']> docs) =
  snd <$> list_find (matches (by_id j)) docs.
Proof.
  intros Hne Hn Hd Hd'.
  assert (∀ x : document, matches (by_id i) x → ¬ matches (by_id j) x)
    as Hno.
  { intros x Hx Hx'. apply matches_by_id in Hx, Hx'. congruence. }
  revert n Hn. induction docs as [|x docs IH]; intros n Hn; [done|].
  destruct n as [|n]; simpl in Hn.
  - injection Hn as ->. cbn [list_find insert list_insert].
    rewrite !decide_False by auto. done.
  - cbn [list_find insert list_insert].
    destruct (decide (matches (by_id j) x)); [done|].
    rewrite <- !option_fmap_compose.
    specialize (IH n Hn).
    destruct (list_find (matches (by_id j)) docs) as [[m y]|],
      (list_find (matches (by_id j)) (<[n:=d']> docs)) as [[m' y']|];
      simpl in *; congruence.
Qed.

Section Isolation.
Context `{!Builtins}.

Lemma get_item_by_first_match j w w' :
  calm 1 w → calm 1 w' →
  snd <$> list_find (matches (by_id j)) (coll w') =
  snd <$> list_find (matches (by_id j)) (coll w) →
  (app (GET_item j) w').1 = (app (GET_item j) w).1.
Proof.
  intros Hc Hc' E. rewrite !get_item_calm by done.
  destruct (list_find (matches (by_id j)) (coll w)) as [[n d]|],
    (list_find (matches (by_id j)) (coll w')) as [[n' d']|];
    simpl in E; try done.
  by injection E as ->.
Qed.

(** A PUT or a DELETE of one id does not change what a GET of another
    id answers. *)
Theorem other_items_unaffected (item_id other : string) (item : ItemBase)
    (w : world) :
  item_id ≠ other →
  calm 1 w →
  let updated := (app (PUT_item item_id item) w).2 in
  let deleted := (app (DELETE_item item_id) w).2 in
  (calm 1 updated →
     (app (GET_item other) updated).1 = (app (GET_item other) w).1) ∧
  (calm 1 deleted →
     (app (GET_item other) deleted).1 = (app (GET_item other) w).1).
Proof.
  intros Hne Hc updated deleted. split; intros Hc'.
  - apply get_item_by_first_match; [done..|]. unfold updated in *.
    destruct (put_item_run item_id item w _ _ (surjective_pairing _))
      as [[_ E]|[(_ & E & _)|[(n & d & _ & _ & _ & _ & E)
           |(n & d & Hfind & _ & _ & _ & E)]]]; rewrite E; try done.
    apply list_find_Some in Hfind as (Hn & Hm & _).
    eapply first_match_after_replace; [done|done|done|].
    by apply matches_union_vars.
  - apply get_item_by_first_match; [done..|]. unfold deleted in *.
    destruct (delete_item_request_run item_id w) as [(e & _ & E)|E];
      rewrite E; [done|].
    simpl. by apply first_match_after_delete.
Qed.

(** POST, then DELETE of the new id: the DELETE answers 204 and the
    collection is back to what it was before the POST. *)
Theorem create_then_delete (item : ItemBase) (w : world) :
  calm 2 w →
  unknown_id (next_id w) (coll w) →
  let created := (app (POST_item item) w).2 in
  (app (DELETE_item (next_id w)) created).1 =
    Ok {| status_code := 204; body := Empty |} ∧
  coll (app (DELETE_item (next_id w)) created).2 = coll w.
Proof.
  intros Hc Hun created.
  assert (coll created = coll w ++ [doc_of_item (mkItem item (next_id w))]
          ∧ calm 1 created) as [E Hc1].
  { unfold created. rewrite post_item_run.
    destruct (create_item_run item w) as [(e & He & _)|[[Hk _]|[_ ->]]].
    - eapply calm_head in He; [done|]. eapply calm_le; [|exact Hc]. lia.
    - done.
    - split; [done|]. apply calm_S. by apply calm_drew. }
  destruct (delete_item_request_run (next_id w) created)
    as [(e & He & _)| ->].
  { by apply calm_head in He. }
  rewrite decide_False.
  2:{ rewrite E. intros [_ Hlast]%Forall_app.
      apply Forall_inv in Hlast. apply Hlast, doc_of_item_ID. }
  split; [done|]. simpl. rewrite E, filter_app, filter_unknown_id by done.
  rewrite filter_cons_False, filter_nil, app_nil_r; [done|].
  rewrite doc_of_item_ID. by intros Hn.
Qed.
End Isolation.

(** *** After the write *)

Lemma since_sent c o docs w : since w (sent c o docs w) = [(c, o)].
Proof. unfold since. simpl. by rewrite drop_app_length. Qed.

Lemma since_sent_drew c o docs w :
  since w (sent c o docs (drew w)) = [(c, o)].
Proof. unfold since. simpl. by rewrite drop_app_length. Qed.

Lemma since_sent_sent c1 o1 docs1 c2 o2 docs2 w :
  since w (sent c2 o2 docs2 (sent c1 o1 docs1 w)) = [(c1, o1); (c2, o2)].
Proof. unfold since. simpl. by rewrite <- app_assoc, drop_app_length. Qed.

Section After_the_write.
Context `{!Builtins}.

(** Only the rendering can go wrong after the write: if the last
    database operation of a request is an insert, an update or a delete
    that came back without an exception, then the request is answered,
    or else its body carries a price that is infinite or NaN and it ends
    in ValueError.  Building the item to return cannot raise. *)
Theorem answered_after_write (req : request) (w : world) (c : command) :
  last (since w (app req w).2) = Some (c, None) →
  is_write c →
  (∃ resp, (app req w).1 = Ok resp) ∨
  ¬ finite_body req ∧ (app req w).1 = Raise ValueError.
Proof.
  destruct req as [i|qs ql|item|i item|i].
  - unfold app. rewrite route_run. unfold endpoints.get_item, bind.
    destruct (read_item_run i w) as [(e & _ & ->)| ->].
    + cbn [fst snd]. rewrite since_sent. by intros [= <-].
    + destruct (match list_find _ _ with Some _ => _ | None => _ end)
        as [[it|]|e]; cbn [fst snd ret]; rewrite since_sent;
        by intros [= <-].
  - unfold app. destruct (get_all_items_params qs ql) as [[s l]|].
    + rewrite route_run. unfold endpoints.get_all_items, bind.
      destruct (get_all_items_run s l w)
        as [[_ ->]|[(e & _ & ->)|[[_ ->]|(_ & _ & ->)]]].
      * cbn [fst snd]. unfold since. by rewrite drop_all.
      * cbn [fst snd]. rewrite since_sent. by intros [= <-].
      * cbn [fst snd]. unfold since. by rewrite drop_all.
      * destruct (validate_all _) as [its|e]; cbn [fst snd ret];
          rewrite since_sent; by intros [= <-].
    + simpl. unfold since. by rewrite drop_all.
  - rewrite post_item_run.
    destruct (create_item_run item w) as [(e & _ & ->)|[[_ ->]|[_ ->]]];
      cbn [fst snd]; rewrite since_sent_drew.
    + by intros [= _].
    + by intros [= _].
    + intros _ _. unfold render_item. cbn [price Item_base finite_body].
      case_decide; [left; by eexists|by right].
  - unfold app. rewrite route_run. unfold endpoints.update_item, bind.
    destruct (read_item_run i w) as [(e & _ & ->)| ->].
    { cbn [fst snd]. rewrite since_sent. by intros [= <-]. }
    destruct (match list_find _ _ with Some _ => _ | None => _ end)
      as [[it|]|e].
    2:{ cbn [fst snd ret]. rewrite since_sent. by intros [= <-]. }
    2:{ cbn [fst snd]. rewrite since_sent. by intros [= <-]. }
    destruct (update_item_run i item
                (sent (CmdFindOne (by_id i)) None (coll w) w))
      as [(e & _ & ->)| ->].
    { cbn [fst snd]. rewrite since_sent_sent. by intros [= _]. }
    simpl coll.
    destruct (list_find (matches (by_id i)) (coll w)) as [[n d]|];
      [destruct (decide (vars item ∪ d = d))|]; cbn [fst snd ret];
      intros _ _; [left; by eexists| |left; by eexists].
    unfold render_item. cbn [price Item_base finite_body].
    case_decide; [left; by eexists|by right].
  - destruct (delete_item_request_run i w) as [(e & _ & ->)| ->].
    + simpl. rewrite since_sent. by intros [= _].
    + intros _ _. left. by eexists.
Qed.
End After_the_write.

(* ================================================================== *)
(** ** Runs on concrete worlds *)

#[local] Existing Instance no_conversions.

Lemma calm_pen_world n : calm n pen_world.
Proof. unfold calm. simpl. rewrite take_nil. constructor. Defined.

Lemma calm_empty_world n : calm n empty_world.
Proof. unfold calm. simpl. rewrite take_nil. constructor. Defined.

Lemma unique_ids_pen_world : unique_ids (coll pen_world).
Proof. apply NoDup_singleton. Defined.

Lemma stored_pen_in_pen_world : doc_of_item stored_pen ∈ coll pen_world.
Proof. apply list_elem_of_here. Defined.

Lemma create_then_get_witness :
  (app (POST_item pen) empty_world).1 =
    Ok {| status_code := 201;
          body := JItem (mkItem pen "00000000-0000-4000-8000-000000000000") |}.
Proof.
  refine (proj1 (create_then_get pen empty_world _ _) _).
  - apply calm_empty_world.
  - exact I.
  - apply Forall_nil_2.
Defined.

(** C1 as stated fails: [gold] is posted to the empty collection, with
    the database in reach and the next identifier not in use.  Its
    document is stored, and the request is not answered 201: it ends in
    the ValueError of the rendering. *)
Lemma post_gold_not_answered :
  calm 2 empty_world ∧
  unknown_id (next_id empty_world) (coll empty_world) ∧
  coll (app (POST_item gold) empty_world).2 = [doc_of_item stored_gold] ∧
  (app (POST_item gold) empty_world).1 = Raise ValueError ∧
  ¬ ∃ resp, (app (POST_item gold) empty_world).1 = Ok resp.
Proof.
  split_and!.
  - apply calm_empty_world.
  - apply Forall_nil_2.
  - vm_compute. reflexivity.
  - vm_compute. reflexivity.
  - intros [resp Hresp]. vm_compute in Hresp. discriminate.
Qed.

Lemma update_item_responses_witness :
  ∃ report,
    (server_update (by_id "a1") (Set_ (vars pen2)) (coll pen_world)).1 =
      Ok report ∧
    (modified_count report = 0 ↔ Item_base stored_pen = pen2) ∧
    (modified_count report = 0 →
       (app (PUT_item "a1" pen2) pen_world).1 =
         Ok {| status_code := 304; body := Empty |}) ∧
    (modified_count report ≠ 0 → finite_float (price pen2) →
       (app (PUT_item "a1" pen2) pen_world).1 =
         Ok {| status_code := 200; body := JItem (mkItem pen2 "a1") |}).
Proof.
  refine (proj2 (update_item_responses "a1" pen2 pen_world _ _)
            stored_pen _ _).
  - apply calm_pen_world.
  - apply unique_ids_pen_world.
  - reflexivity.
  - apply stored_pen_in_pen_world.
Defined.

(** C2 as stated fails: the stored pen is updated to [gold], with the
    database in reach.  The store reports a modification and holds the
    new fields, and the request is not answered 200 with the updated
    item: it ends in the ValueError of the rendering. *)
Lemma put_gold_not_answered :
  calm 2 pen_world ∧
  unique_ids (coll pen_world) ∧
  doc_of_item stored_pen ∈ coll pen_world ∧
  (∃ report,
     (server_update (by_id "a1") (Set_ (vars gold)) (coll pen_world)).1 =
       Ok report ∧
     modified_count report ≠ 0) ∧
  coll (app (PUT_item "a1" gold) pen_world).2 =
    [doc_of_item (mkItem gold "a1")] ∧
  (app (PUT_item "a1" gold) pen_world).1 = Raise ValueError ∧
  ¬ ∃ resp, (app (PUT_item "a1" gold) pen_world).1 = Ok resp.
Proof.
  split_and!.
  - apply calm_pen_world.
  - apply unique_ids_pen_world.
  - apply stored_pen_in_pen_world.
  - eexists. split; [vm_compute; reflexivity|]. vm_compute. discriminate.
  - vm_compute. reflexivity.
  - vm_compute. reflexivity.
  - intros [resp Hresp]. vm_compute in Hresp. discriminate.
Qed.

Lemma delete_item_404_or_204_witness :
  coll (app (DELETE_item "a1") pen_world).2 =
  filter (fun d : document => d !! ID ≠ Some (VStr "a1")) (coll pen_world).
Proof.
  apply (delete_item_404_or_204 "a1" pen_world). apply calm_pen_world.
Defined.

Lemma get_item_200_or_404_witness :
  (app (GET_item "a1") pen_world).1 =
    Ok {| status_code := 200; body := JItem stored_pen |}.
Proof.
  apply (get_item_200_or_404 "a1" pen_world).
  - apply calm_pen_world.
  - apply unique_ids_pen_world.
  - reflexivity.
  - apply stored_pen_in_pen_world.
  - exact I.
Defined.

Lemma calm_gold_world n : calm n gold_world.
Proof. unfold calm. simpl. rewrite take_nil. constructor. Defined.

(** C4 as stated fails: the collection that the POST of [gold] leaves
    holds that item, under an id of its own, and with the database in
    reach the GET of its id is not answered 200 with it: it ends in the
    ValueError of the rendering. *)
Lemma get_gold_not_answered :
  coll (app (POST_item gold) empty_world).2 = coll gold_world ∧
  calm 1 gold_world ∧
  unique_ids (coll gold_world) ∧
  doc_of_item stored_gold ∈ coll gold_world ∧
  (app (GET_item (id stored_gold)) gold_world).1 = Raise ValueError ∧
  ¬ ∃ resp, (app (GET_item (id stored_gold)) gold_world).1 = Ok resp.
Proof.
  split_and!.
  - vm_compute. reflexivity.
  - apply calm_gold_world.
  - apply NoDup_singleton.
  - apply list_elem_of_here.
  - vm_compute. reflexivity.
  - intros [resp Hresp]. vm_compute in Hresp. discriminate.
Qed.

Lemma get_all_items_page_witness :
  (app (GET_items (Some (QInt 0)) (Some (QInt 1))) pen_world).1 =
    Ok {| status_code := 200; body := JItems [stored_pen] |}.
Proof.
  refine (proj1 (get_all_items_page [stored_pen] pen_world _ _)
            (Some (QInt 0)) (Some (QInt 1)) 0 1 _ _ _ _).
  - apply calm_pen_world.
  - reflexivity.
  - reflexivity.
  - lia.
  - lia.
  - apply Forall_singleton. exact I.
Defined.

(** C5 as stated fails, in two ways.  With skip=2^63 the listing of
    the empty collection is not answered 200 with the empty list: the
    driver cannot encode the skip and the request ends in
    OverflowError.  And the listing of the collection that holds [gold],
    with the default skip and limit, is not answered 200 with that item:
    it ends in the ValueError of the rendering. *)
Lemma listing_not_answered :
  calm 1 empty_world ∧
  coll empty_world = doc_of_item <$> [] ∧
  get_all_items_params (Some (QInt (2 ^ 63))) None = Some (2 ^ 63, 100) ∧
  (app (GET_items (Some (QInt (2 ^ 63))) None) empty_world).1 =
    Raise OverflowError ∧
  calm 1 gold_world ∧
  coll gold_world = doc_of_item <$> [stored_gold] ∧
  get_all_items_params None None = Some (0, 100) ∧
  (app (GET_items None None) gold_world).1 = Raise ValueError.
Proof.
  split_and!.
  - apply calm_empty_world.
  - reflexivity.
  - reflexivity.
  - vm_compute. reflexivity.
  - apply calm_gold_world.
  - reflexivity.
  - reflexivity.
  - vm_compute. reflexivity.
Qed.

Lemma get_all_items_any_integer_witness :
  app (GET_items (Some (QInt (-1))) (Some (QInt 100))) pen_world =
    (Raise ValueError, pen_world).
Proof.
  apply (get_all_items_any_integer (-1) 100 pen_world). left. lia.
Defined.

Lemma db_errors_propagate_witness :
  (app (GET_item "a1") down_world).1 =
    Raise (PyMongoError ServerSelectionTimeoutError).
Proof.
  apply (db_errors_propagate (GET_item "a1") down_world
           (CmdFindOne (by_id "a1"))).
  vm_compute. apply list_elem_of_here.
Defined.

Lemma update_200_body_witness :
  since pen_world (app (PUT_item "a1" pen2) pen_world).2 =
    [(CmdFindOne (by_id "a1"), None);
     (CmdUpdate (by_id "a1") (Set_ (vars pen2)), None)].
Proof.
  refine (proj2 (update_200_body "a1" pen2 pen_world
                   (app (PUT_item "a1" pen2) pen_world).2
                   {| status_code := 200;
                      body := JItem (mkItem pen2 "a1") |} _ _)).
  - vm_compute. reflexivity.
  - reflexivity.
Defined.

Lemma update_unknown_no_write_witness :
  coll (app (PUT_item "zz" pen2) pen_world).2 = coll pen_world.
Proof.
  apply (update_unknown_no_write "zz" pen2 pen_world).
  - apply calm_pen_world.
  - apply Forall_singleton. vm_compute. discriminate.
Defined.

(** C7 as stated fails: a request with skip=-1 passes the
    parameter declaration [skip: int = 0] and reaches the handler. *)
Lemma negative_skip_is_accepted :
  ¬ accepted_nonnegative (Some (QInt (-1))) None.
Proof.
  intros Hacc. destruct (Hacc (-1) 100) as [Hskip _]; [reflexivity|].
  lia.
Qed.

(** The run of the specification's example: POST the pen, GET it, PUT a
    new price, DELETE it, GET it again. *)
Example pen_scenario :
  let i := "00000000-0000-4000-8000-000000000000" in
  let '(r1, w1) := app (POST_item pen) empty_world in
  let '(r2, w2) := app (GET_item i) w1 in
  let '(r3, w3) := app (PUT_item i pen2) w2 in
  let '(r4, w4) := app (DELETE_item i) w3 in
  let '(r5, w5) := app (GET_item i) w4 in
  r1 = Ok {| status_code := 201; body := JItem (mkItem pen i) |} ∧
  r2 = Ok {| status_code := 200; body := JItem (mkItem pen i) |} ∧
  r3 = Ok {| status_code := 200; body := JItem (mkItem pen2 i) |} ∧
  r4 = Ok {| status_code := 204; body := Empty |} ∧
  r5 = Ok {| status_code := 404; body := Empty |} ∧
  coll w5 = [].
Proof. vm_compute. by split_and!. Qed.

(** The same PUT twice: the second finds nothing to modify. *)
Example pen_put_twice :
  let '(_, w1) := app (PUT_item "a1" pen2) pen_world in
  (app (PUT_item "a1" pen2) w1).1 =
    Ok {| status_code := 304; body := Empty |}.
Proof. by vm_compute. Qed.

(** The unique index at work: the same entropy twice. *)
Example pen_duplicate :
  let '(_, w1) := app (POST_item pen) empty_world in
  let w1' := {| coll := coll w1; faults := []; wire := wire w1;
                urandom := fun _ => 0%N; drawn := 0 |} in
  (app (POST_item pen2) w1').1 = Raise DuplicateKeyError.
Proof. by vm_compute. Qed.

(** *** Runs for the further properties *)



Lemma calm_shelf_world n : calm n shelf_world.
Proof. unfold calm. simpl. rewrite take_nil. constructor. Defined.

Lemma calm_clash_world n : calm n clash_world.
Proof. unfold calm. simpl. rewrite take_nil. constructor. Defined.

Lemma calm_without_faults n w : faults w = [] → calm n w.
Proof. intros E. unfold calm. rewrite E, take_nil. constructor. Defined.

Lemma post_never_overwrites_witness :
  coll (app (POST_item pen2) clash_world).2 = coll clash_world.
Proof.
  refine (proj2 (post_never_overwrites pen2 clash_world _ _)).
  - apply calm_clash_world.
  - intros Hun. apply Forall_inv in Hun. apply Hun. reflexivity.
Defined.

Lemma put_keeps_other_documents_witness :
  coll (app (PUT_item "a1" pen2) shelf_world).2 !! 1%nat =
    Some (doc_of_item stored_ink).
Proof.
  refine (proj2 (put_keeps_other_documents "a1" pen2 shelf_world)
            1%nat (doc_of_item stored_ink) _ _).
  - reflexivity.
  - vm_compute. discriminate.
Defined.

Lemma update_then_get_witness :
  (app (GET_item "a1") (app (PUT_item "a1" pen2) pen_world).2).1 =
    Ok {| status_code := 200; body := JItem (mkItem pen2 "a1") |}.
Proof.
  refine (update_then_get "a1" pen2 pen_world _
            {| status_code := 200; body := JItem (mkItem pen2 "a1") |}
            _ _ _).
  - vm_compute. reflexivity.
  - reflexivity.
  - apply calm_without_faults. reflexivity.
Defined.

Lemma put_again_304_witness :
  (app (PUT_item "a1" pen2) (app (PUT_item "a1" pen2) pen_world).2).1 =
    Ok {| status_code := 304; body := Empty |}.
Proof.
  refine (proj1 (put_again_304 "a1" pen2 pen_world _
            {| status_code := 200; body := JItem (mkItem pen2 "a1") |}
            _ _ _)).
  - vm_compute. reflexivity.
  - reflexivity.
  - apply calm_without_faults. reflexivity.
Defined.


Lemma delete_again_404_witness :
  (app (DELETE_item "a1") (app (DELETE_item "a1") pen_world).2).1 =
    Ok {| status_code := 404; body := Empty |}.
Proof.
  refine (proj1 (delete_again_404 "a1" pen_world _)).
  apply calm_pen_world.
Defined.

Lemma failed_request_leaves_collection_witness :
  coll (app (DELETE_item "a1") down_world).2 = coll down_world.
Proof.
  refine (failed_request_leaves_collection (DELETE_item "a1") down_world
            (PyMongoError ServerSelectionTimeoutError) _ _).
  - vm_compute. reflexivity.
  - right. exact I.
Defined.


Lemma get_item_answers_requested_id_witness :
  ∃ it n d,
    body {| status_code := 200; body := JItem stored_pen |} = JItem it ∧
    id it = "a1" ∧
    list_find (matches (by_id "a1")) (coll pen_world) = Some (n, d) ∧
    validate d = Ok it.
Proof.
  refine (get_item_answers_requested_id "a1" pen_world
            {| status_code := 200; body := JItem stored_pen |} _ _).
  - vm_compute. reflexivity.
  - reflexivity.
Defined.



Lemma pages_join_up_witness :
  ∃ p1 p2,
    (app (GET_items (Some (QInt 0)) (Some (QInt 1))) shelf_world).1 =
      Ok {| status_code := 200; body := JItems p1 |} ∧
    (app (GET_items (Some (QInt (0 + 1))) (Some (QInt 2))) shelf_world).1 =
      Ok {| status_code := 200; body := JItems p2 |} ∧
    (app (GET_items (Some (QInt 0)) (Some (QInt (1 + 2)))) shelf_world).1 =
      Ok {| status_code := 200; body := JItems (p1 ++ p2) |} ∧
    (length p1 ≤ Z.to_nat 1)%nat ∧ (length p2 ≤ Z.to_nat 2)%nat.
Proof.
  refine (pages_join_up [stored_pen; stored_ink; stored_cap] shelf_world
            0 1 2 _ _ _ _ _ _ _).
  - apply calm_shelf_world.
  - reflexivity.
  - lia.
  - lia.
  - lia.
  - lia.
  - repeat constructor.
Defined.

Lemma listing_past_the_end_witness :
  (app (GET_items (Some (QInt 3)) (Some (QInt 100))) shelf_world).1 =
    Ok {| status_code := 200; body := JItems [] |}.
Proof.
  refine (proj1 (listing_past_the_end [stored_pen; stored_ink; stored_cap]
                   shelf_world 3 100 _ _ _ _) _).
  - apply calm_shelf_world.
  - reflexivity.
  - simpl. lia.
  - lia.
  - lia.
Defined.

Lemma database_out_of_reach_witness :
  (app (POST_item pen) down_world).1 =
    Raise (PyMongoError ServerSelectionTimeoutError).
Proof.
  refine (proj1 (database_out_of_reach (POST_item pen) down_world
                   ServerSelectionTimeoutError _ _)).
  - reflexivity.
  - exact I.
Defined.

Lemma other_items_unaffected_witness :
  (app (GET_item "b2") (app (DELETE_item "a1") shelf_world).2).1 =
  (app (GET_item "b2") shelf_world).1.
Proof.
  refine (proj2 (other_items_unaffected "a1" "b2" pen2 shelf_world _ _) _).
  - discriminate.
  - apply calm_shelf_world.
  - apply calm_without_faults. reflexivity.
Defined.

Lemma create_then_delete_witness :
  coll (app (DELETE_item (next_id empty_world))
          (app (POST_item pen) empty_world).2).2 = coll empty_world.
Proof.
  refine (proj2 (create_then_delete pen empty_world _ _)).
  - apply calm_empty_world.
  - apply Forall_nil_2.
Defined.

Lemma well_stored_pen_world : well_stored (coll pen_world).
Proof.
  exists [stored_pen]. split; [reflexivity|apply NoDup_singleton].
Defined.

Lemma well_stored_preserved_witness :
  well_stored (coll (app (PUT_item "a1" pen2) pen_world).2).
Proof.
  refine (well_stored_preserved (PUT_item "a1" pen2) pen_world _).
  apply well_stored_pen_world.
Defined.

Lemma reachable_well_stored_witness :
  well_stored (coll (app (POST_item pen) empty_world).2) ∧
  unique_ids (coll (app (POST_item pen) empty_world).2).
Proof.
  refine (reachable_well_stored (app (POST_item pen) empty_world).2 _).
  apply reachable_step. apply reachable_start. reflexivity.
Defined.

Lemma answered_after_write_witness :
  (∃ resp, (app (DELETE_item "a1") pen_world).1 = Ok resp) ∨
  ¬ finite_body (DELETE_item "a1") ∧
  (app (DELETE_item "a1") pen_world).1 = Raise ValueError.
Proof.
  refine (answered_after_write (DELETE_item "a1") pen_world
            (CmdDelete (by_id "a1")) _ _).
  - vm_compute. reflexivity.
  - exact I.
Defined.
